(** * Rate validation state machine of the currencies demo (src/App.tsx)

    The development embeds the reducer [ratesReducer], the keyed debounce
    [useKeyedDebounce], the provider wiring of [CurrenciesProvider] and the
    [OrderTotal] computation, and states the specified properties on them. *)

From Stdlib Require Import ZArith List.
From Stdlib Require Import Floats.PrimFloat.
From stdpp Require Import gmap strings list fin_maps pretty.

Set Warnings "-inexact-float".

(** ** Values *)

(** A JavaScript [number] is an IEEE 754 binary64 value. *)
Abbreviation number := PrimFloat.float.

(** A property read such as [entry.confirmedRate] yields either a number or
    [undefined] (the property is absent, or holds [undefined]). *)
Inductive field : Type :=
| undefined
| num (x : number).

(** Calling a function or reading a property through [undefined] raises a
    [TypeError]; everything else returns normally. *)
Inductive result (A : Type) : Type :=
| Ok (a : A)
| TypeError.
Arguments Ok {A} a.
Arguments TypeError {A}.

Definition bind {A B : Type} (r : result A) (k : A -> result B) : result B :=
  match r with
  | Ok a => k a
  | TypeError => TypeError
  end.

(** ** Objects and their prototype *)

(** The rates state, the orders state and [debounceStates.current] are plain
    objects: a read [o[id]] of a name the object does not own goes to
    [Object.prototype]. These are the names it defines (ECMAScript, with
    Annex B). The value found there is a function, or [Object.prototype]
    itself for ["__proto__"]: it is not [undefined], it has no [rate],
    [state] or [confirmedRate], and spreading it contributes no property.
    A computed key in an object literal always defines an own property. *)
Definition Object_prototype : list string :=
  ["constructor"; "__defineGetter__"; "__defineSetter__"; "hasOwnProperty";
   "__lookupGetter__"; "__lookupSetter__"; "isPrototypeOf";
   "propertyIsEnumerable"; "toString"; "valueOf"; "__proto__";
   "toLocaleString"].

Definition inherited (id : string) : bool :=
  bool_decide (id ∈ Object_prototype).

(** ** Data model (App.tsx, lines 28-38) *)

Inductive CurrencyRateState : Type :=
| ACCEPTED
| DIRTY
| IN_PROGRESS.

Record CurrencyRate : Type := mkCurrencyRate {
  rate : field;
  state : CurrencyRateState;
  confirmedRate : field
}.

(** The object literal [{...e, rate: r, state: s}] where [e] may be
    [undefined]: spreading [undefined] contributes no property. *)
Definition spread_rate (e : option CurrencyRate) : field :=
  match e with Some c => rate c | None => undefined end.
Definition spread_confirmedRate (e : option CurrencyRate) : field :=
  match e with Some c => confirmedRate c | None => undefined end.

(** ** Actions (App.tsx, lines 60-72) *)

Inductive RatesAction : Type :=
| EditCurrencyRate (id : string) (r : number)
| StartIsValidRequest (id : string)
| IsValidResult (id : string) (res : bool).

Definition target (a : RatesAction) : string :=
  match a with
  | EditCurrencyRate id _ => id
  | StartIsValidRequest id => id
  | IsValidResult id _ => id
  end.

(** ** The reducer (App.tsx, lines 73-107) *)

Definition ratesReducer (prev : gmap string CurrencyRate) (action : RatesAction)
  : result (gmap string CurrencyRate) :=
  match action with
  | EditCurrencyRate id r =>
      Ok (<[id := {| rate := num r;
                     state := DIRTY;
                     confirmedRate := spread_confirmedRate (prev !! id) |}]> prev)
  | StartIsValidRequest id =>
      Ok (<[id := {| rate := spread_rate (prev !! id);
                     state := IN_PROGRESS;
                     confirmedRate := spread_confirmedRate (prev !! id) |}]> prev)
  | IsValidResult id res =>
      match prev !! id with
      | Some previousState =>
          let newRate :=
            if res then rate previousState else confirmedRate previousState in
          Ok (<[id := {| rate := newRate;
                         state := ACCEPTED;
                         confirmedRate := newRate |}]> prev)
      | None =>
          if inherited id
          then Ok (<[id := {| rate := undefined;
                              state := ACCEPTED;
                              confirmedRate := undefined |}]> prev)
          else TypeError
      end
  end.

(** [useReducer] applies the reducer to the dispatched actions one after
    the other; a throwing reducer ends the run. *)
Fixpoint run (s : gmap string CurrencyRate) (actions : list RatesAction)
  : result (gmap string CurrencyRate) :=
  match actions with
  | [] => Ok s
  | a :: rest => bind (ratesReducer s a) (fun s' => run s' rest)
  end.

Definition is_IsValidResult (a : RatesAction) : bool :=
  match a with
  | IsValidResult _ _ => true
  | _ => false
  end.

(** ** Initial state (App.tsx, lines 40-52) *)

(** [Object.fromEntries]: later entries overwrite earlier ones. *)
Definition fromEntries {V : Type} (entries : list (string * V)) : gmap string V :=
  fold_left (fun m kv => <[kv.1 := kv.2]> m) entries ∅.

Section Seed.

(** [initialCurrencyRates] is imported from ./utils: the seed mapping of
    currency code to rate, taken here as its list of entries. *)
Variable initialCurrencyRates : list (string * number).

Definition initialCurrencyRatesState : gmap string CurrencyRate :=
  fromEntries
    (map (fun kv => (kv.1, {| rate := num kv.2;
                              state := ACCEPTED;
                              confirmedRate := num kv.2 |}))
         initialCurrencyRates).

(** States reachable from the initial one through the reducer. *)
Inductive reachable : gmap string CurrencyRate -> Prop :=
| reachable_init : reachable initialCurrencyRatesState
| reachable_step s a s' :
    reachable s -> ratesReducer s a = Ok s' -> reachable s'.

End Seed.

(** ** Host timers: [setTimeout] and [clearTimeout] *)

(** A live timer holds its expiry time and the closure [() => fn(id, ...args)]
    handed to [setTimeout], kept as the data the closure captured. *)
Record Timeout (A : Type) : Type := mkTimeout {
  deadline : N;
  cb_id : string;
  cb_args : A
}.
Arguments mkTimeout {A} _ _ _.
Arguments deadline {A} _.
Arguments cb_id {A} _.
Arguments cb_args {A} _.

(** The host keeps a clock (in ms), the next handle to hand out (handles are
    positive integers, never reused) and the table of timers not yet fired
    or cleared. *)
Record Host (A : Type) : Type := mkHost {
  clock : N;
  nextHandle : positive;
  live : gmap positive (Timeout A)
}.
Arguments mkHost {A} _ _ _.
Arguments clock {A} _.
Arguments nextHandle {A} _.
Arguments live {A} _.

Section Debounce.

Context {A : Type}.

Definition setTimeout (h : Host A) (id : string) (args : A) (timeout : N)
  : Host A * positive :=
  ({| clock := clock h;
      nextHandle := Pos.succ (nextHandle h);
      live := <[nextHandle h := {| deadline := clock h + timeout;
                                   cb_id := id;
                                   cb_args := args |}]> (live h) |},
   nextHandle h).

Definition clearTimeout (h : Host A) (t : positive) : Host A :=
  {| clock := clock h;
     nextHandle := nextHandle h;
     live := delete t (live h) |}.

Definition elapse (h : Host A) (dt : N) : Host A :=
  {| clock := clock h + dt;
     nextHandle := nextHandle h;
     live := live h |}.

(** A live timer whose deadline has passed fires: it leaves the table and its
    callback runs, that is [fn(id, ...args)] is called. *)
Definition expire (h : Host A) (t : positive) : option (Host A * (string * A)) :=
  match live h !! t with
  | Some tm =>
      if (deadline tm <=? clock h)%N
      then Some ({| clock := clock h;
                    nextHandle := nextHandle h;
                    live := delete t (live h) |},
                 (cb_id tm, cb_args tm))
      else None
  | None => None
  end.

(** ** The keyed debounce (App.tsx, lines 136-149) *)

(** [debounceStates.current] maps a key to the handle of the last timer set
    for it; a handle is a positive integer, hence truthy whenever present. *)
Record Debounce : Type := mkDebounce {
  host : Host A;
  debounceStates : gmap string positive
}.

(** The function returned by [useKeyedDebounce(fn, timeout)]. *)
Definition debounced (timeout : N) (d : Debounce) (id : string) (args : A)
  : Debounce :=
  let h1 :=
    match debounceStates d !! id with
    | Some t => clearTimeout (host d) t
    | None => host d
    end in
  let '(h2, t) := setTimeout h1 id args timeout in
  {| host := h2; debounceStates := <[id := t]> (debounceStates d) |}.

Definition debounce_init : Debounce :=
  {| host := {| clock := 0; nextHandle := 1; live := ∅ |};
     debounceStates := ∅ |}.

(** What can happen to a debouncer: a call, time passing, a timer firing. *)
Inductive DebounceEvent : Type :=
| Call (id : string) (args : A)
| Wait (dt : N)
| Fire (t : positive).

(** One event; the second component lists the calls of [fn] it causes.
    A timer that is not live or not yet due does not fire. *)
Definition debounce_step (timeout : N) (d : Debounce) (ev : DebounceEvent)
  : Debounce * list (string * A) :=
  match ev with
  | Call id args => (debounced timeout d id args, [])
  | Wait dt =>
      ({| host := elapse (host d) dt; debounceStates := debounceStates d |}, [])
  | Fire t =>
      match expire (host d) t with
      | Some (h, call) =>
          ({| host := h; debounceStates := debounceStates d |}, [call])
      | None => (d, [])
      end
  end.

Fixpoint debounce_run (timeout : N) (d : Debounce) (evs : list DebounceEvent)
  : Debounce * list (string * A) :=
  match evs with
  | [] => (d, [])
  | ev :: rest =>
      let '(d1, calls1) := debounce_step timeout d ev in
      let '(d2, calls2) := debounce_run timeout d1 rest in
      (d2, calls1 ++ calls2)
  end.

(** The timers still pending for a key. *)
Definition pending (d : Debounce) (k : string) : gmap positive (Timeout A) :=
  filter (fun tt => cb_id tt.2 = k) (live (host d)).

(** The calls of [fn] made for a key. *)
Definition calls_for (k : string) (calls : list (string * A)) : list (string * A) :=
  filter (fun c => c.1 = k) calls.



(** A debouncer is well formed when every pending timer is the one recorded
    for its key, a recorded handle that is still pending belongs to its key,
    and no handle in use has reached [nextHandle]. *)
Definition debounce_wf (d : Debounce) : Prop :=
  (forall t tm, live (host d) !! t = Some tm ->
                debounceStates d !! cb_id tm = Some t) /\
  (forall k t tm, debounceStates d !! k = Some t ->
                  live (host d) !! t = Some tm -> cb_id tm = k) /\
  (forall t tm, live (host d) !! t = Some tm ->
                (t < nextHandle (host d))%positive) /\
  (forall k t, debounceStates d !! k = Some t ->
               (t < nextHandle (host d))%positive).

End Debounce.

Arguments Debounce A : clear implicits.
Arguments DebounceEvent A : clear implicits.

(** ** The provider (App.tsx, lines 109-134) *)

(** The state the provider owns: the reducer state of [useReducer], the
    debouncer with the host's timers, and the calls of [isCurrecyRateValid]
    that have not settled yet, each with the arguments it was made with. *)
Record Provider : Type := mkProvider {
  currencyRates : gmap string CurrencyRate;
  debounceRef : Debounce number;
  inflight : list (string * number)
}.

(** [useKeyedDebounce] is called without a timeout: the default applies. *)
Definition default_timeout : N := 300.

Definition dispatch (w : Provider) (action : RatesAction) : result Provider :=
  bind (ratesReducer (currencyRates w) action)
       (fun s => Ok {| currencyRates := s;
                       debounceRef := debounceRef w;
                       inflight := inflight w |}).

(** The debounced function up to its [await]: it dispatches
    [StartIsValidRequest] and calls [isCurrecyRateValid(id, rate)]. *)
Definition validation_start (w : Provider) (id : string) (r : number)
  : result Provider :=
  bind (dispatch w (StartIsValidRequest id))
       (fun w1 => Ok {| currencyRates := currencyRates w1;
                        debounceRef := debounceRef w1;
                        inflight := inflight w1 ++ [(id, r)] |}).

(** The rest of it, once the [i]-th outstanding call settles with [res]. *)
Definition validation_settle (w : Provider) (i : nat) (res : bool)
  : result Provider :=
  match inflight w !! i with
  | Some (id, _) =>
      dispatch {| currencyRates := currencyRates w;
                  debounceRef := debounceRef w;
                  inflight := delete i (inflight w) |}
               (IsValidResult id res)
  | None => Ok w
  end.

Definition effectDispatch (w : Provider) (action : RatesAction)
  : result Provider :=
  let w1 :=
    match action with
    | EditCurrencyRate id r =>
        {| currencyRates := currencyRates w;
           debounceRef := debounced default_timeout (debounceRef w) id r;
           inflight := inflight w |}
    | _ => w
    end in
  dispatch w1 action.

(** Events the event loop hands to the provider, one at a time. *)
Inductive Event : Type :=
| UserEdit (id : string) (r : number)
| Elapse (dt : N)
| TimerFires (t : positive)
| Settles (i : nat) (res : bool).

(** An event that cannot happen in the current state (a timer that is not
    due, a call that does not exist) leaves the state as it is. *)
Definition step (w : Provider) (ev : Event) : result Provider :=
  match ev with
  | UserEdit id r => effectDispatch w (EditCurrencyRate id r)
  | Elapse dt =>
      Ok {| currencyRates := currencyRates w;
            debounceRef := {| host := elapse (host (debounceRef w)) dt;
                              debounceStates := debounceStates (debounceRef w) |};
            inflight := inflight w |}
  | TimerFires t =>
      match expire (host (debounceRef w)) t with
      | Some (h, (id, r)) =>
          validation_start
            {| currencyRates := currencyRates w;
               debounceRef := {| host := h;
                                 debounceStates := debounceStates (debounceRef w) |};
               inflight := inflight w |}
            id r
      | None => Ok w
      end
  | Settles i res => validation_settle w i res
  end.

(** [CurrencyRateComponent] (App.tsx, line 207): the input of a currency is
    disabled while its validation is in progress. *)
Definition isDisabled (currencyRate : CurrencyRate) : bool :=
  match state currencyRate with
  | IN_PROGRESS => true
  | _ => false
  end.

(** The event loop when edits come through the inputs only: an edit of a
    currency whose input is disabled does not happen. *)
Definition ui_step (w : Provider) (ev : Event) : result Provider :=
  match ev with
  | UserEdit id _ =>
      match currencyRates w !! id with
      | Some e => if isDisabled e then Ok w else step w ev
      | None => step w ev
      end
  | _ => step w ev
  end.

Fixpoint run_events (f : Provider -> Event -> result Provider)
    (w : Provider) (evs : list Event) : result Provider :=
  match evs with
  | [] => Ok w
  | ev :: rest => bind (f w ev) (fun w' => run_events f w' rest)
  end.

Definition provider_init (initialCurrencyRates : list (string * number))
  : Provider :=
  {| currencyRates := initialCurrencyRatesState initialCurrencyRates;
     debounceRef := debounce_init;
     inflight := [] |}.


(** ** Orders and their total (App.tsx, lines 327-339) *)

(** [Order] is declared in ./utils; these are the properties App.tsx uses. *)
Record Order : Type := mkOrder {
  order_id : string;
  title : string;
  price : number;
  currency : string
}.

(** [Object.values] of an object given by its entries in property order. *)
Definition Object_values {V : Type} (o : list (string * V)) : list V :=
  map snd o.

Fixpoint map_result {X Y : Type} (f : X -> result Y) (xs : list X)
  : result (list Y) :=
  match xs with
  | [] => Ok []
  | x :: rest =>
      bind (f x) (fun y => bind (map_result f rest) (fun ys => Ok (y :: ys)))
  end.

(** The read [currencyRates[id].confirmedRate]: the entry's value when the
    state owns [id]; [undefined] when [id] is found on the prototype; a
    [TypeError] when [currencyRates[id]] is [undefined]. *)
Definition read_confirmedRate (rates : gmap string CurrencyRate) (id : string)
  : result field :=
  match rates !! id with
  | Some e => Ok (confirmedRate e)
  | None => if inherited id then Ok undefined else TypeError
  end.

Section Totals.

(** [getBaseCurrencyPrice] is imported from ./utils; its second argument is
    whatever the read of [confirmedRate] yields. *)
Variable conv : number -> field -> number.

(** The callback of [.map]: it reads
    [currencyRates[order.currency].confirmedRate]. *)
Definition converted (rates : gmap string CurrencyRate) (order : Order)
  : result number :=
  bind (read_confirmedRate rates (currency order))
       (fun currencyRate => Ok (conv (price order) currencyRate)).

Definition OrderTotal (orders : list (string * Order))
    (rates : gmap string CurrencyRate) : result number :=
  bind (map_result (converted rates) (Object_values orders))
       (fun xs => Ok (fold_left (fun a b => (a + b)%float) xs 0%float)).

End Totals.

(** [ToNumber]: arithmetic on [undefined] yields [NaN]. *)
Definition ToNumber (f : field) : number :=
  match f with
  | num x => x
  | undefined => nan
  end.

(** Modelled from the spec: [getBaseCurrencyPrice] of ./utils, which is not
    among the sources. The spec converts a price of 10 at a confirmed rate of
    2 to a base-currency value of 20: the price times the rate. *)
Definition getBaseCurrencyPrice (price : number) (currencyRate : field) : number :=
  (price * ToNumber currencyRate)%float.

(** ** Further code of App.tsx *)

(** [initialCurrencies] (App.tsx, line 23): [Object.keys] of the seed; this
    is the list [CurrencySelector] offers. *)
Definition initialCurrencies (initialCurrencyRates : list (string * number))
  : list string :=
  initialCurrencyRates.*1.

(** The ids edited by a list of events. *)
Fixpoint edited_ids (evs : list Event) : list string :=
  match evs with
  | [] => []
  | UserEdit id _ :: rest => id :: edited_ids rest
  | _ :: rest => edited_ids rest
  end.

Section DebounceTraces.

Context {A : Type}.

(** The calls made to the debounced function in a list of events. *)
Fixpoint calls_made (evs : list (DebounceEvent A)) : list (string * A) :=
  match evs with
  | [] => []
  | Call id args :: rest => (id, args) :: calls_made rest
  | _ :: rest => calls_made rest
  end.



End DebounceTraces.

(** *** The orders reducer (App.tsx, lines 151-187) *)

(** An entry of the orders state. The reducer spreads [prev[id]], which is
    [undefined] for an id the state lacks, so an entry may miss properties. *)
Record OrderEntry : Type := mkOrderEntry {
  entry_id : option string;
  entry_title : option string;
  entry_price : field;
  entry_currency : option string
}.

(** An [Order] as the object it is: every property present. *)
Definition whole (o : Order) : OrderEntry :=
  {| entry_id := Some (order_id o);
     entry_title := Some (title o);
     entry_price := num (price o);
     entry_currency := Some (currency o) |}.

(** [{...e}] where [e] may be [undefined]. *)
Definition spread_order (e : option OrderEntry) : OrderEntry :=
  match e with
  | Some o => o
  | None => {| entry_id := None; entry_title := None;
               entry_price := undefined; entry_currency := None |}
  end.

Inductive OrdersAction : Type :=
| Add (payload : Order)
| EditCurrency (id : string) (value : string)
| EditPrice (id : string) (value : number).

(** The [default] branch of the [switch] is not reachable for an action of
    the union type. *)
Definition ordersReducer (prev : gmap string OrderEntry) (action : OrdersAction)
  : gmap string OrderEntry :=
  match action with
  | Add payload => <[order_id payload := whole payload]> prev
  | EditPrice id value =>
      <[id := {| entry_id := entry_id (spread_order (prev !! id));
                 entry_title := entry_title (spread_order (prev !! id));
                 entry_price := num value;
                 entry_currency := entry_currency (spread_order (prev !! id)) |}]>
        prev
  | EditCurrency id value =>
      <[id := {| entry_id := entry_id (spread_order (prev !! id));
                 entry_title := entry_title (spread_order (prev !! id));
                 entry_price := entry_price (spread_order (prev !! id));
                 entry_currency := Some value |}]>
        prev
  end.

Definition orders_target (a : OrdersAction) : string :=
  match a with
  | Add payload => order_id payload
  | EditCurrency id _ => id
  | EditPrice id _ => id
  end.

Definition orders_run (s : gmap string OrderEntry) (actions : list OrdersAction)
  : gmap string OrderEntry :=
  fold_left ordersReducer actions s.

(** An orders state in which every entry has all its properties and is
    stored under its own id. *)
Definition orders_whole (s : gmap string OrderEntry) : Prop :=
  forall k e, s !! k = Some e ->
    exists o, e = whole o /\ order_id o = k.

(** The ids of the orders a list of actions adds. *)
Fixpoint added_ids (actions : list OrdersAction) : list string :=
  match actions with
  | [] => []
  | Add payload :: rest => order_id payload :: added_ids rest
  | _ :: rest => added_ids rest
  end.

(** Every edit in the list names an order the state holds when the edit is
    applied, as the edits made from the rows of the orders table do. *)
Fixpoint edits_name_orders (s : gmap string OrderEntry)
    (actions : list OrdersAction) : Prop :=
  match actions with
  | [] => True
  | a :: rest =>
      match a with
      | Add _ => True
      | _ => orders_target a ∈ dom s
      end /\ edits_name_orders (ordersReducer s a) rest
  end.

(** ** Objects with their property order *)

(** [Object.entries], [Object.values] and the spread enumerate the own
    properties of an object in property order: first the keys that are array
    indices (canonical decimal numerals below 2^32 - 1), in ascending numeric
    order, then the other keys in the order in which they were created. An
    object is given here by its entries in that order. *)

Definition digit (c : Ascii.ascii) : option N :=
  let n := Ascii.N_of_ascii c in
  if (48 <=? n)%N && (n <=? 57)%N then Some (n - 48)%N else None.

Fixpoint parse_digits (acc : N) (s : string) : option N :=
  match s with
  | EmptyString => Some acc
  | String c rest =>
      match digit c with
      | Some dgt => parse_digits (acc * 10 + dgt) rest
      | None => None
      end
  end.

(** The numeric value of a key that is an array index. *)
Definition array_index (s : string) : option N :=
  match s with
  | EmptyString => None
  | _ =>
      match parse_digits 0 s with
      | Some n =>
          if bool_decide (pretty n = s) && (n <? 4294967295)%N
          then Some n else None
      | None => None
      end
  end.

Section Objects.

Context {V : Type}.

Definition has_key (k : string) (o : list (string * V)) : bool :=
  bool_decide (k ∈ o.*1).

(** The own property [k] of [o], if any. *)
Definition obj_get (k : string) (o : list (string * V)) : option V :=
  (list_to_map o : gmap string V) !! k.

(** Writing an existing property keeps its place. *)
Fixpoint obj_replace (k : string) (v : V) (o : list (string * V))
  : list (string * V) :=
  match o with
  | [] => []
  | (k', v') :: rest =>
      if decide (k' = k) then (k, v) :: rest
      else (k', v') :: obj_replace k v rest
  end.

(** A new array index goes before the first key that is not an array index
    or is a larger one. *)
Fixpoint obj_insert_index (n : N) (k : string) (v : V) (o : list (string * V))
  : list (string * V) :=
  match o with
  | [] => [(k, v)]
  | (k', v') :: rest =>
      match array_index k' with
      | Some n' =>
          if (n' <? n)%N then (k', v') :: obj_insert_index n k v rest
          else (k, v) :: (k', v') :: rest
      | None => (k, v) :: (k', v') :: rest
      end
  end.

(** [{...o, [k]: v}]: the entries of [o] in their order, with [k] written. *)
Definition obj_set (k : string) (v : V) (o : list (string * V))
  : list (string * V) :=
  if has_key k o then obj_replace k v o
  else match array_index k with
       | Some n => obj_insert_index n k v o
       | None => o ++ [(k, v)]
       end.

End Objects.

(** *** The reducers on objects with their property order *)

(** [ratesReducer] (App.tsx, lines 73-107) on the entries in property
    order. *)
Definition ratesReducer_entries (prev : list (string * CurrencyRate))
    (action : RatesAction) : result (list (string * CurrencyRate)) :=
  match action with
  | EditCurrencyRate id r =>
      Ok (obj_set id {| rate := num r;
                        state := DIRTY;
                        confirmedRate := spread_confirmedRate (obj_get id prev) |}
            prev)
  | StartIsValidRequest id =>
      Ok (obj_set id {| rate := spread_rate (obj_get id prev);
                        state := IN_PROGRESS;
                        confirmedRate := spread_confirmedRate (obj_get id prev) |}
            prev)
  | IsValidResult id res =>
      match obj_get id prev with
      | Some previousState =>
          let newRate :=
            if res then rate previousState else confirmedRate previousState in
          Ok (obj_set id {| rate := newRate;
                            state := ACCEPTED;
                            confirmedRate := newRate |} prev)
      | None =>
          if inherited id
          then Ok (obj_set id {| rate := undefined;
                                 state := ACCEPTED;
                                 confirmedRate := undefined |} prev)
          else TypeError
      end
  end.

Fixpoint run_entries (s : list (string * CurrencyRate))
    (actions : list RatesAction) : result (list (string * CurrencyRate)) :=
  match actions with
  | [] => Ok s
  | a :: rest => bind (ratesReducer_entries s a) (fun s' => run_entries s' rest)
  end.

(** [ordersReducer] (App.tsx, lines 164-187) on the entries in property
    order. *)
Definition ordersReducer_entries (prev : list (string * OrderEntry))
    (action : OrdersAction) : list (string * OrderEntry) :=
  match action with
  | Add payload => obj_set (order_id payload) (whole payload) prev
  | EditPrice id value =>
      obj_set id
        {| entry_id := entry_id (spread_order (obj_get id prev));
           entry_title := entry_title (spread_order (obj_get id prev));
           entry_price := num value;
           entry_currency := entry_currency (spread_order (obj_get id prev)) |}
        prev
  | EditCurrency id value =>
      obj_set id
        {| entry_id := entry_id (spread_order (obj_get id prev));
           entry_title := entry_title (spread_order (obj_get id prev));
           entry_price := entry_price (spread_order (obj_get id prev));
           entry_currency := Some value |}
        prev
  end.

Definition orders_run_entries (s : list (string * OrderEntry))
    (actions : list OrdersAction) : list (string * OrderEntry) :=
  fold_left ordersReducer_entries actions s.

(** ** The variant without validation (second source file) *)

Module Plain.

(** Lines 26-29: an entry has a rate and a status only. *)
Record CurrencyRate : Type := mkCurrencyRate {
  rate : number;
  state : CurrencyRateState
}.

(** Lines 31-42. *)
Definition initialCurrencyRatesState
    (initialCurrencyRates : list (string * number)) : gmap string CurrencyRate :=
  fromEntries
    (map (fun kv => (kv.1, {| rate := kv.2; state := ACCEPTED |}))
         initialCurrencyRates).

(** Lines 55-66: the only action is [EditCurrencyRate]; the new entry is
    written whole, nothing of the previous one is kept. *)
Definition ratesReducer (prev : gmap string CurrencyRate) (id : string)
    (r : number) : gmap string CurrencyRate :=
  <[id := {| rate := r; state := DIRTY |}]> prev.

Inductive reachable (initialCurrencyRates : list (string * number))
  : gmap string CurrencyRate -> Prop :=
| reachable_init :
    reachable initialCurrencyRates
      (initialCurrencyRatesState initialCurrencyRates)
| reachable_step s id r :
    reachable initialCurrencyRates s ->
    reachable initialCurrencyRates (ratesReducer s id r).

(** The read [currencyRates[id].rate], as [read_confirmedRate] above. *)
Definition read_rate (rates : gmap string CurrencyRate) (id : string)
  : result field :=
  match rates !! id with
  | Some e => Ok (num (rate e))
  | None => if inherited id then Ok undefined else TypeError
  end.

(** Lines 255-264: the total reads the raw [rate]. *)
Definition OrderTotal (conv : number -> field -> number)
    (orders : list (string * Order)) (rates : gmap string CurrencyRate)
  : result number :=
  bind (map_result
          (fun order : Order =>
             bind (read_rate rates (currency order))
                  (fun currencyRate => Ok (conv (price order) currencyRate)))
          (Object_values orders))
       (fun xs => Ok (fold_left (fun a b => (a + b)%float) xs 0%float)).

(** The edits dispatched one after the other. *)
Definition run (s : gmap string CurrencyRate) (edits : list (string * number))
  : gmap string CurrencyRate :=
  fold_left (fun s e => ratesReducer s e.1 e.2) edits s.

End Plain.

(** Forgetting [confirmedRate]: what the variant without validation keeps of
    an entry, when the entry has a rate. *)
Definition forget_entry (e : CurrencyRate) : option Plain.CurrencyRate :=
  match rate e with
  | num r => Some {| Plain.rate := r; Plain.state := state e |}
  | undefined => None
  end.

Definition forget (s : gmap string CurrencyRate)
  : gmap string Plain.CurrencyRate :=
  omap forget_entry s.

(** ** Invariants *)

(** Every accepted entry shows its confirmed rate. *)
Definition converged (s : gmap string CurrencyRate) : Prop :=
  forall k e, s !! k = Some e -> state e = ACCEPTED -> rate e = confirmedRate e.



(** The entry a transition writes under its id, from the entry found there;
    the reducer is a write of it ([ratesReducer_entries_written] below). *)
Definition written_entry (a : RatesAction) (found : option CurrencyRate)
  : result CurrencyRate :=
  match a with
  | EditCurrencyRate _ r =>
      Ok {| rate := num r; state := DIRTY;
            confirmedRate := spread_confirmedRate found |}
  | StartIsValidRequest _ =>
      Ok {| rate := spread_rate found; state := IN_PROGRESS;
            confirmedRate := spread_confirmedRate found |}
  | IsValidResult _ res =>
      match found with
      | Some e =>
          Ok {| rate := if res then rate e else confirmedRate e;
                state := ACCEPTED;
                confirmedRate := if res then rate e else confirmedRate e |}
      | None =>
          if inherited (target a)
          then Ok {| rate := undefined; state := ACCEPTED;
                     confirmedRate := undefined |}
          else TypeError
      end
  end.

(** What holds of the provider in every run: the debouncer is well formed,
    accepted entries have converged, and every timer and every outstanding
    call names a currency that has an entry. *)
Definition provider_sound (w : Provider) : Prop :=
  debounce_wf (debounceRef w) /\
  converged (currencyRates w) /\
  (forall t tm, live (host (debounceRef w)) !! t = Some tm ->
                is_Some (currencyRates w !! cb_id tm)) /\
  (forall i id r, inflight w !! i = Some (id, r) ->
                  is_Some (currencyRates w !! id)).


(** The entry an orders action writes under its id, from the entry found
    there; the reducer is a write of it ([ordersReducer_entries_set]
    below). *)
Definition written_order (a : OrdersAction) (found : option OrderEntry)
  : OrderEntry :=
  match a with
  | Add payload => whole payload
  | EditPrice _ value =>
      {| entry_id := entry_id (spread_order found);
         entry_title := entry_title (spread_order found);
         entry_price := num value;
         entry_currency := entry_currency (spread_order found) |}
  | EditCurrency _ value =>
      {| entry_id := entry_id (spread_order found);
         entry_title := entry_title (spread_order found);
         entry_price := entry_price (spread_order found);
         entry_currency := Some value |}
  end.

(** ** Sample data for the examples *)

Definition usd_seed : list (string * number) := [("USD", 1.1%float)].

Definition usd_order : list (string * Order) :=
  [("o1", {| order_id := "o1"; title := "article";
             price := 10%float; currency := "USD" |})].

(** * Properties *)

(** ** The reducer, one action at a time *)

Lemma ratesReducer_ok_iff (s : gmap string CurrencyRate) (a : RatesAction) :
  (exists s', ratesReducer s a = Ok s') <->
  (is_IsValidResult a = false \/ is_Some (s !! target a) \/
   inherited (target a) = true).
Proof.
  destruct a as [id r|id|id res]; simpl.
  - split; [auto | eauto].
  - split; [auto | eauto].
  - destruct (s !! id) as [e|] eqn:He.
    + split; [intros _; right; left; eauto | eauto].
    + destruct (inherited id).
      * split; [auto | eauto].
      * split.
        -- intros [s' Hs']. discriminate.
        -- intros [H|[[e He']|H]]; discriminate.
Qed.

Lemma ratesReducer_frame (s s' : gmap string CurrencyRate) (a : RatesAction)
    (k : string) :
  ratesReducer s a = Ok s' -> k <> target a -> s' !! k = s !! k.
Proof.
  intros Hred Hk.
  destruct a as [id r|id|id res]; simpl in *.
  - injection Hred as <-. by rewrite lookup_insert_ne.
  - injection Hred as <-. by rewrite lookup_insert_ne.
  - destruct (s !! id) as [e|]; [|destruct (inherited id); [|discriminate]];
      injection Hred as <-; by rewrite lookup_insert_ne.
Qed.

Lemma ratesReducer_dom (s s' : gmap string CurrencyRate) (a : RatesAction) :
  ratesReducer s a = Ok s' -> dom s' = {[target a]} ∪ dom s.
Proof.
  intros Hred.
  destruct a as [id r|id|id res]; simpl in *.
  - injection Hred as <-. by rewrite dom_insert_L.
  - injection Hred as <-. by rewrite dom_insert_L.
  - destruct (s !! id) as [e|]; [|destruct (inherited id); [|discriminate]];
      injection Hred as <-; by rewrite dom_insert_L.
Qed.

(** An edit or the start of a validation keeps the confirmed rate of every
    entry. *)
Lemma ratesReducer_keeps_confirmedRate (s s' : gmap string CurrencyRate)
    (a : RatesAction) (k : string) (e : CurrencyRate) :
  is_IsValidResult a = false ->
  ratesReducer s a = Ok s' ->
  s !! k = Some e ->
  exists e', s' !! k = Some e' /\ confirmedRate e' = confirmedRate e.
Proof.
  intros Ha Hred Hk.
  destruct (decide (k = target a)) as [->|Hne].
  - destruct a as [id r|id|id res]; simpl in *; try discriminate;
      injection Hred as <-; rewrite lookup_insert_eq, Hk; eauto.
  - exists e. split; [|done].
    by rewrite (ratesReducer_frame _ _ _ _ Hred Hne).
Qed.

Lemma run_app (s : gmap string CurrencyRate) (xs ys : list RatesAction) :
  run s (xs ++ ys) = bind (run s xs) (fun s' => run s' ys).
Proof.
  revert s. induction xs as [|a xs IH]; intros s; simpl; [done|].
  destruct (ratesReducer s a) as [s1|]; simpl; [apply IH | done].
Qed.

(** Edits and validation starts never throw and keep confirmed rates. *)
Lemma run_keeps_confirmedRate (acts : list RatesAction)
    (s : gmap string CurrencyRate) (k : string) (e : CurrencyRate) :
  Forall (fun a => is_IsValidResult a = false) acts ->
  s !! k = Some e ->
  exists s' e', run s acts = Ok s' /\ s' !! k = Some e' /\
                confirmedRate e' = confirmedRate e.
Proof.
  intros Hacts. revert s e.
  induction Hacts as [|a acts Ha _ IH]; intros s e Hk; simpl.
  - eauto.
  - destruct (proj2 (ratesReducer_ok_iff s a) (or_introl Ha)) as [s1 Hs1].
    rewrite Hs1. simpl.
    destruct (ratesReducer_keeps_confirmedRate _ _ _ _ _ Ha Hs1 Hk)
      as (e1 & Hk1 & Hc1).
    destruct (IH s1 e1 Hk1) as (s' & e' & Hrun & Hk' & Hc').
    exists s', e'. repeat split; [done..|congruence].
Qed.

(** ** C6: what an edit does *)

(** C6. For every state, known currency id and new rate, [EditCurrencyRate]
    sets the entry's rate to the new value and its status to [DIRTY] and
    keeps its [confirmedRate]; and neither [EditCurrencyRate] nor
    [StartIsValidRequest], whatever id it names, changes the [confirmedRate]
    of any entry: only [IsValidResult] can. *)
Theorem edit_sets_rate_and_dirty_only (s : gmap string CurrencyRate)
    (id : string) (e : CurrencyRate) (r : number) :
  s !! id = Some e ->
  (exists s', ratesReducer s (EditCurrencyRate id r) = Ok s' /\
     s' !! id = Some {| rate := num r; state := DIRTY;
                        confirmedRate := confirmedRate e |}) /\
  (forall a k ek, is_IsValidResult a = false -> s !! k = Some ek ->
     exists s' ek', ratesReducer s a = Ok s' /\ s' !! k = Some ek' /\
                    confirmedRate ek' = confirmedRate ek).
Proof.
  intros Hid. split.
  - eexists. split; [reflexivity|].
    by rewrite lookup_insert_eq, Hid.
  - intros a k ek Ha Hk.
    destruct (proj2 (ratesReducer_ok_iff s a) (or_introl Ha)) as [s' Hs'].
    destruct (ratesReducer_keeps_confirmedRate _ _ _ _ _ Ha Hs' Hk)
      as (ek' & Hk' & Hc).
    eauto.
Qed.

(** ** C10: a transition touches one entry *)

(** C10. For every state and every action, the reducer returns a state,
    except for an [IsValidResult] whose id is neither a key of the state nor a
    name found on the prototype, where the read of [previousState.rate]
    throws; and the state it returns has an entry under the action's id and
    maps every other key to the entry it had before. *)
Theorem ratesReducer_modifies_only_target (s : gmap string CurrencyRate)
    (a : RatesAction) :
  ((exists s', ratesReducer s a = Ok s') <->
   (is_IsValidResult a = false \/ is_Some (s !! target a) \/
    inherited (target a) = true)) /\
  (forall s', ratesReducer s a = Ok s' ->
     is_Some (s' !! target a) /\
     forall k, k <> target a -> s' !! k = s !! k).
Proof.
  split.
  - apply ratesReducer_ok_iff.
  - intros s' Hred. split.
    + apply elem_of_dom. rewrite (ratesReducer_dom _ _ _ Hred).
      apply elem_of_union_l, elem_of_singleton. reflexivity.
    + intros k. by apply ratesReducer_frame.
Qed.

(** ** C1: accepted entries have converged *)

Lemma converged_fromEntries (seeds : list (string * number))
    (m : gmap string CurrencyRate) :
  converged m ->
  converged
    (fold_left (fun m kv => <[kv.1 := kv.2]> m)
       (map (fun kv : string * number =>
               (kv.1, {| rate := num kv.2; state := ACCEPTED;
                         confirmedRate := num kv.2 |})) seeds) m).
Proof.
  revert m. induction seeds as [|[id r] seeds IH]; intros m Hm; simpl; [done|].
  apply IH. intros k e Hk Hst.
  destruct (decide (k = id)) as [->|Hne].
  - rewrite lookup_insert_eq in Hk. by injection Hk as <-.
  - rewrite lookup_insert_ne in Hk by done. by apply (Hm k).
Qed.

Lemma converged_step (s s' : gmap string CurrencyRate) (a : RatesAction) :
  converged s -> ratesReducer s a = Ok s' -> converged s'.
Proof.
  intros Hs Hred k e Hk Hst.
  destruct (decide (k = target a)) as [->|Hne].
  - destruct a as [id r|id|id res]; simpl in *.
    + injection Hred as <-. rewrite lookup_insert_eq in Hk.
      injection Hk as <-. discriminate.
    + injection Hred as <-. rewrite lookup_insert_eq in Hk.
      injection Hk as <-. discriminate.
    + destruct (s !! id) as [prev|];
        [|destruct (inherited id); [|discriminate]];
        injection Hred as <-; rewrite lookup_insert_eq in Hk;
        by injection Hk as <-.
  - rewrite (ratesReducer_frame _ _ _ _ Hred Hne) in Hk. by apply (Hs k).
Qed.

(** C1. In every state reachable from the initial state through the three
    transitions, every entry whose status is [ACCEPTED] has its [rate] equal
    to its [confirmedRate]. *)
Theorem accepted_implies_rate_is_confirmedRate
    (initialCurrencyRates : list (string * number))
    (s : gmap string CurrencyRate) :
  reachable initialCurrencyRates s ->
  forall k e, s !! k = Some e -> state e = ACCEPTED ->
              rate e = confirmedRate e.
Proof.
  induction 1 as [|s a s' _ IH Hred].
  - apply converged_fromEntries. intros k e Hk. by rewrite lookup_empty in Hk.
  - by apply (converged_step s s' a).
Qed.

Lemma accepted_implies_rate_is_confirmedRate_witness :
  let s := <["USD" := {| rate := num 1.2%float; state := ACCEPTED;
                         confirmedRate := num 1.2%float |}]>
             (<["USD" := {| rate := num 1.2%float; state := DIRTY;
                            confirmedRate := num 1.1%float |}]>
                (initialCurrencyRatesState usd_seed)) in
  let e := {| rate := num 1.2%float; state := ACCEPTED;
              confirmedRate := num 1.2%float |} in
  reachable usd_seed s /\ s !! "USD" = Some e /\ state e = ACCEPTED /\
  rate e = confirmedRate e.
Proof.
  intros s e.
  assert (Hreach : reachable usd_seed s).
  { eapply (reachable_step _ _ (IsValidResult "USD" true)).
    - eapply (reachable_step _ _ (EditCurrencyRate "USD" 1.2%float)).
      + apply reachable_init.
      + reflexivity.
    - reflexivity. }
  assert (Hk : s !! "USD" = Some e) by apply lookup_insert_eq.
  split; [exact Hreach | split; [exact Hk | split; [reflexivity |]]].
  exact (accepted_implies_rate_is_confirmedRate usd_seed s Hreach "USD" e Hk
           eq_refl).
Defined.

(** ** C2: an accepted validation confirms the current rate *)

(** C2. For every known currency, [IsValidResult] with [true] sets
    [confirmedRate] to the rate the entry holds when the result is applied;
    so after an edit to [r1], the start of its validation and a further edit
    to [r2], an accepted result leaves [confirmedRate] (and [rate]) at [r2]. *)
Theorem accept_confirms_rate_at_resolution (s : gmap string CurrencyRate)
    (id : string) (e : CurrencyRate) :
  s !! id = Some e ->
  (exists s', ratesReducer s (IsValidResult id true) = Ok s' /\
     s' !! id = Some {| rate := rate e; state := ACCEPTED;
                        confirmedRate := rate e |}) /\
  (forall r1 r2, exists s',
     run s [EditCurrencyRate id r1; StartIsValidRequest id;
            EditCurrencyRate id r2; IsValidResult id true] = Ok s' /\
     s' !! id = Some {| rate := num r2; state := ACCEPTED;
                        confirmedRate := num r2 |}).
Proof.
  intros Hid. split.
  - simpl. rewrite Hid. eexists. split; [reflexivity|].
    by rewrite lookup_insert_eq.
  - intros r1 r2. simpl.
    rewrite !lookup_insert_eq. simpl.
    eexists. split; [reflexivity|]. by rewrite lookup_insert_eq.
Qed.

Lemma accept_confirms_rate_at_resolution_witness :
  let s := initialCurrencyRatesState usd_seed in
  let e := {| rate := num 1.1%float; state := ACCEPTED;
              confirmedRate := num 1.1%float |} in
  s !! "USD" = Some e /\
  exists s',
    run s [EditCurrencyRate "USD" 1.2%float; StartIsValidRequest "USD";
           EditCurrencyRate "USD" 1.3%float; IsValidResult "USD" true] = Ok s' /\
    s' !! "USD" = Some {| rate := num 1.3%float; state := ACCEPTED;
                          confirmedRate := num 1.3%float |}.
Proof.
  intros s e.
  assert (Hk : s !! "USD" = Some e) by apply lookup_insert_eq.
  split; [exact Hk|].
  exact (proj2 (accept_confirms_rate_at_resolution s "USD" e Hk)
           1.2%float 1.3%float).
Defined.

(** ** C3: a rejected validation rolls back *)

(** C3. For every known currency, [IsValidResult] with [false] sets [rate]
    back to [confirmedRate], keeps [confirmedRate] and sets the status to
    [ACCEPTED]; hence whatever edits and validation starts came since the
    confirmed value, before or after the rejected validation was issued,
    the rejection leaves [rate] and [confirmedRate] at that value. *)
Theorem reject_reverts_to_confirmedRate (s : gmap string CurrencyRate)
    (id : string) (e : CurrencyRate) :
  s !! id = Some e ->
  (exists s', ratesReducer s (IsValidResult id false) = Ok s' /\
     s' !! id = Some {| rate := confirmedRate e; state := ACCEPTED;
                        confirmedRate := confirmedRate e |}) /\
  (forall acts, Forall (fun a => is_IsValidResult a = false) acts ->
     exists s', run s (acts ++ [IsValidResult id false]) = Ok s' /\
       s' !! id = Some {| rate := confirmedRate e; state := ACCEPTED;
                          confirmedRate := confirmedRate e |}).
Proof.
  intros Hid. split.
  - simpl. rewrite Hid. eexists. split; [reflexivity|].
    by rewrite lookup_insert_eq.
  - intros acts Hacts.
    destruct (run_keeps_confirmedRate acts s id e Hacts Hid)
      as (s1 & e1 & Hrun & Hk1 & Hc1).
    rewrite run_app, Hrun. simpl. rewrite Hk1. simpl.
    eexists. split; [reflexivity|].
    by rewrite lookup_insert_eq, Hc1.
Qed.

Lemma reject_reverts_to_confirmedRate_witness :
  let s := initialCurrencyRatesState usd_seed in
  let e := {| rate := num 1.1%float; state := ACCEPTED;
              confirmedRate := num 1.1%float |} in
  s !! "USD" = Some e /\
  Forall (fun a => is_IsValidResult a = false)
         [EditCurrencyRate "USD" 1.2%float] /\
  exists s',
    run s ([EditCurrencyRate "USD" 1.2%float] ++ [IsValidResult "USD" false])
      = Ok s' /\
    s' !! "USD" = Some {| rate := num 1.1%float; state := ACCEPTED;
                          confirmedRate := num 1.1%float |}.
Proof.
  intros s e.
  assert (Hk : s !! "USD" = Some e) by apply lookup_insert_eq.
  assert (Hacts : Forall (fun a => is_IsValidResult a = false)
                         [EditCurrencyRate "USD" 1.2%float]).
  { constructor; [reflexivity | constructor]. }
  split; [exact Hk | split; [exact Hacts |]].
  exact (proj2 (reject_reverts_to_confirmedRate s "USD" e Hk) _ Hacts).
Defined.

(** ** C5: ids the state does not know *)

(** C5, as the code has it. An edit never throws. For an id the state knows
    it leaves the key set as it is; for an id the state lacks it adds an
    entry holding the new rate, status [DIRTY] and no [confirmedRate]. No
    transition ever removes a key, and a transition that names a known id
    leaves the key set as it is. *)
Theorem edit_keeps_known_keys_and_adds_unknown (s : gmap string CurrencyRate)
    (id : string) (r : number) :
  (exists s', ratesReducer s (EditCurrencyRate id r) = Ok s' /\
     dom s' = {[id]} ∪ dom s /\
     (id ∈ dom s -> dom s' = dom s) /\
     (id ∉ dom s ->
        s' !! id = Some {| rate := num r; state := DIRTY;
                           confirmedRate := undefined |})) /\
  (forall a s', ratesReducer s a = Ok s' ->
     dom s ⊆ dom s' /\ (target a ∈ dom s -> dom s' = dom s)).
Proof.
  split.
  - eexists. split; [reflexivity|]. split; [|split].
    + by rewrite dom_insert_L.
    + intros Hin. apply dom_insert_lookup_L. by apply elem_of_dom.
    + intros Hnotin. apply not_elem_of_dom in Hnotin.
      by rewrite lookup_insert_eq, Hnotin.
  - intros a s' Hred. rewrite (ratesReducer_dom _ _ _ Hred). split.
    + apply union_subseteq_r.
    + intros Hin. apply subseteq_union_1_L. by apply singleton_subseteq_l.
Qed.

Lemma edit_keeps_known_keys_and_adds_unknown_witness :
  let s := initialCurrencyRatesState usd_seed in
  "USD" ∈ dom s /\
  exists s', ratesReducer s (EditCurrencyRate "USD" 1.2%float) = Ok s' /\
             dom s' = dom s.
Proof.
  intros s.
  assert (Hin : "USD" ∈ dom s).
  { apply elem_of_dom. eexists. apply lookup_insert_eq. }
  split; [exact Hin|].
  destruct (proj1 (edit_keeps_known_keys_and_adds_unknown s "USD" 1.2%float))
    as (s' & Hred & _ & Hknown & _).
  exists s'. split; [exact Hred | exact (Hknown Hin)].
Defined.

(** C5 fails as stated: in the state made from the startup list, an edit for
    an id outside that list returns normally and the key set has grown. *)
Lemma edit_of_unknown_id_adds_an_entry :
  let s := initialCurrencyRatesState usd_seed in
  dom s = list_to_set (usd_seed.*1) /\
  ("EUR" ∉ dom s) /\
  exists s', ratesReducer s (EditCurrencyRate "EUR" 1.5%float) = Ok s' /\
             s' !! "EUR" = Some {| rate := num 1.5%float; state := DIRTY;
                                   confirmedRate := undefined |} /\
             dom s' <> dom s.
Proof.
  intros s.
  assert (Hnot : "EUR" ∉ dom s).
  { apply not_elem_of_dom. reflexivity. }
  split; [|split; [exact Hnot|]].
  - unfold s, initialCurrencyRatesState, fromEntries. simpl.
    rewrite dom_insert_L, dom_empty_L. set_solver.
  - eexists. split; [reflexivity|]. split.
    + rewrite lookup_insert_eq. reflexivity.
    + intros Heq. apply Hnot. rewrite <- Heq, dom_insert_L. set_solver.
Qed.

(** ** The keyed debounce *)

Section DebounceFacts.

Context {A : Type}.
Implicit Types (d : Debounce A) (k id : string) (t : positive)
  (tm : Timeout A) (ev : DebounceEvent A) (evs : list (DebounceEvent A)).

Lemma debounce_wf_init : debounce_wf (@debounce_init A).
Proof.
  repeat split; simpl; intros *; rewrite lookup_empty; discriminate.
Qed.

(** The table of timers after a call: the new timer is added, the one
    recorded for the key, if any, is gone, the others stay. *)
Lemma live_debounced timeout d id (args : A) t :
  live (host (debounced timeout d id args)) !! t =
    if decide (t = nextHandle (host d))
    then Some {| deadline := clock (host d) + timeout;
                 cb_id := id; cb_args := args |}
    else if decide (debounceStates d !! id = Some t) then None
    else live (host d) !! t.
Proof.
  unfold debounced.
  destruct (debounceStates d !! id) as [told|] eqn:Hold; simpl.
  - destruct (decide (t = nextHandle (host d))) as [->|Hne].
    + by rewrite lookup_insert_eq.
    + rewrite lookup_insert_ne by done.
      destruct (decide (Some told = Some t)) as [[= ->]|Hne'].
      * by rewrite lookup_delete_eq.
      * rewrite lookup_delete_ne; [done|congruence].
  - destruct (decide (t = nextHandle (host d))) as [->|Hne].
    + by rewrite lookup_insert_eq.
    + rewrite lookup_insert_ne by done.
      by destruct (decide (None = Some t)).
Qed.

Lemma nextHandle_debounced timeout d id (args : A) :
  nextHandle (host (debounced timeout d id args)) = Pos.succ (nextHandle (host d)).
Proof. unfold debounced. by destruct (debounceStates d !! id). Qed.


Lemma debounceStates_debounced timeout d id (args : A) :
  debounceStates (debounced timeout d id args) =
    <[id := nextHandle (host d)]> (debounceStates d).
Proof. unfold debounced. by destruct (debounceStates d !! id). Qed.

Lemma debounce_wf_debounced timeout d id (args : A) :
  debounce_wf d -> debounce_wf (debounced timeout d id args).
Proof.
  intros (Hrec & Hown & Hlive & Hds).
  repeat split.
  - intros t tm. rewrite live_debounced, debounceStates_debounced.
    destruct (decide (t = nextHandle (host d))) as [->|Hne].
    + intros [= <-]. simpl. by rewrite lookup_insert_eq.
    + destruct (decide (debounceStates d !! id = Some t)) as [Hold|Hold];
        [discriminate|].
      intros Htm. destruct (decide (cb_id tm = id)) as [Heq|Hneq].
      * exfalso. apply Hold. rewrite <- Heq. by apply Hrec.
      * rewrite lookup_insert_ne by done. by apply Hrec.
  - intros k t tm. rewrite live_debounced, debounceStates_debounced.
    destruct (decide (k = id)) as [->|Hk].
    + rewrite lookup_insert_eq. intros [= <-].
      rewrite decide_True by done. by intros [= <-].
    + rewrite lookup_insert_ne by done. intros Hkt.
      destruct (decide (t = nextHandle (host d))) as [->|Hne].
      * apply Hds in Hkt. lia.
      * destruct (decide (debounceStates d !! id = Some t)); [discriminate|].
        by apply Hown.
  - intros t tm. rewrite live_debounced, nextHandle_debounced.
    destruct (decide (t = nextHandle (host d))) as [->|Hne]; [lia|].
    destruct (decide (debounceStates d !! id = Some t)); [discriminate|].
    intros Htm. apply Hlive in Htm. lia.
  - intros k t. rewrite debounceStates_debounced, nextHandle_debounced.
    destruct (decide (k = id)) as [->|Hk].
    + rewrite lookup_insert_eq. intros [= <-]. lia.
    + rewrite lookup_insert_ne by done. intros Hkt. apply Hds in Hkt. lia.
Qed.

Lemma expire_Some (h h' : Host A) t (call : string * A) :
  expire h t = Some (h', call) ->
  exists tm, live h !! t = Some tm /\ (deadline tm <= clock h)%N /\
             call = (cb_id tm, cb_args tm) /\
             live h' = delete t (live h) /\
             nextHandle h' = nextHandle h /\ clock h' = clock h.
Proof.
  unfold expire. destruct (live h !! t) as [tm|]; [|discriminate].
  destruct (deadline tm <=? clock h)%N eqn:Hdue; [|discriminate].
  intros [= <- <-]. exists tm. apply N.leb_le in Hdue. done.
Qed.

Lemma debounce_wf_step timeout d ev :
  debounce_wf d -> debounce_wf (debounce_step timeout d ev).1.
Proof.
  intros Hwf. destruct ev as [id args|dt|t]; simpl.
  - by apply debounce_wf_debounced.
  - exact Hwf.
  - destruct (expire (host d) t) as [[h call]|] eqn:Hexp; [|exact Hwf].
    apply expire_Some in Hexp as (tm & _ & _ & _ & Hl & Hn & _).
    destruct Hwf as (Hrec & Hown & Hlive & Hds).
    repeat split; simpl; rewrite ?Hl, ?Hn.
    + intros t' tm' Ht'. apply lookup_delete_Some in Ht' as [_ Ht'].
      by apply Hrec.
    + intros k t' tm' Hk Ht'. apply lookup_delete_Some in Ht' as [_ Ht'].
      by apply (Hown k t').
    + intros t' tm' Ht'. apply lookup_delete_Some in Ht' as [_ Ht'].
      by apply (Hlive t' tm').
    + exact Hds.
Qed.

Lemma debounce_run_app timeout d evs1 evs2 :
  debounce_run timeout d (evs1 ++ evs2) =
    let '(d1, calls1) := debounce_run timeout d evs1 in
    let '(d2, calls2) := debounce_run timeout d1 evs2 in
    (d2, calls1 ++ calls2).
Proof.
  revert d. induction evs1 as [|ev evs1 IH]; intros d; simpl.
  - by destruct (debounce_run timeout d evs2).
  - destruct (debounce_step timeout d ev) as [d1 c1]. rewrite IH.
    destruct (debounce_run timeout d1 evs1) as [d2 c2].
    destruct (debounce_run timeout d2 evs2) as [d3 c3].
    by rewrite app_assoc.
Qed.


End DebounceFacts.

Section DebounceCoalescing.

Context {A : Type}.
Implicit Types (d : Debounce A) (k id : string) (t : positive)
  (tm : Timeout A) (ev : DebounceEvent A) (evs : list (DebounceEvent A)).

(** After a call for [k], the one timer pending for [k] is the new one. *)
Lemma pending_debounced_same timeout d k (args : A) :
  debounce_wf d ->
  pending (debounced timeout d k args) k =
    {[ nextHandle (host d) := {| deadline := clock (host d) + timeout;
                                 cb_id := k; cb_args := args |} ]}.
Proof.
  intros (Hrec & _). apply map_eq. intros t. unfold pending.
  destruct (decide (t = nextHandle (host d))) as [->|Hne].
  - rewrite lookup_singleton_eq. apply map_lookup_filter_Some_2; [|done].
    rewrite live_debounced. by rewrite decide_True.
  - rewrite lookup_singleton_ne by done.
    apply map_lookup_filter_None_2. right. intros tm.
    rewrite live_debounced, decide_False by done.
    destruct (decide (debounceStates d !! k = Some t)) as [|Hold];
      [discriminate|].
    intros Htm Hk. simpl in Hk. apply Hold. rewrite <- Hk. by apply Hrec.
Qed.

(** A call for [k] leaves the timers pending for any other key as they are. *)
Lemma pending_debounced_other timeout d k k' (args : A) :
  debounce_wf d -> k' <> k ->
  pending (debounced timeout d k args) k' = pending d k'.
Proof.
  intros (_ & Hown & Hlive & _) Hk. unfold pending.
  apply map_filter_strong_ext_1. intros t tm.
  rewrite live_debounced. simpl. split.
  - intros [Hid Htm].
    destruct (decide (t = nextHandle (host d))) as [->|Hne].
    + injection Htm as <-. simpl in Hid. congruence.
    + destruct (decide (debounceStates d !! k = Some t)); [discriminate|done].
  - intros [Hid Htm]. split; [done|].
    destruct (decide (t = nextHandle (host d))) as [->|Hne].
    + apply Hlive in Htm. lia.
    + destruct (decide (debounceStates d !! k = Some t)) as [Hold|]; [|done].
      pose proof (Hown _ _ _ Hold Htm). congruence.
Qed.


End DebounceCoalescing.

Section DebounceBurst.

Context {A : Type}.
Implicit Types (d : Debounce A) (k id : string) (t : positive)
  (tm : Timeout A) (ev : DebounceEvent A) (evs : list (DebounceEvent A)).

Lemma pending_lookup d k t tm :
  pending d k !! t = Some tm <-> live (host d) !! t = Some tm /\ cb_id tm = k.
Proof. unfold pending. by rewrite map_lookup_filter_Some. Qed.

Lemma pending_expired d k t (h : Host A) (call : string * A) :
  expire (host d) t = Some (h, call) ->
  pending {| host := h; debounceStates := debounceStates d |} k
    = delete t (pending d k).
Proof.
  intros Hexp. apply expire_Some in Hexp as (tm & _ & _ & _ & Hl & _).
  unfold pending. simpl. rewrite Hl. apply map_filter_delete.
Qed.

End DebounceBurst.

Section DebounceWindow.

Context {A : Type}.
Implicit Types (d : Debounce A) (k id : string) (t : positive)
  (tm : Timeout A) (ev : DebounceEvent A) (evs : list (DebounceEvent A)).







End DebounceWindow.



(** Two calls for one key and one for another, then the timers run out: [fn]
    is called once per key, for the first key with the second value. *)
Example debounce_two_edits_one_call :
  (debounce_run 300 debounce_init
     [Call "USD" 1.2%float; Call "EUR" 0.9%float; Call "USD" 1.3%float;
      Wait 300%N; Fire 1%positive; Fire 2%positive; Fire 3%positive]).2
  = [("EUR", 0.9%float); ("USD", 1.3%float)].
Proof. vm_compute. reflexivity. Qed.

(** ** The provider: validation calls in flight *)











(** ** C8: the order total *)

Lemma map_result_app {X Y : Type} (f : X -> result Y) (xs ys : list X) :
  map_result f (xs ++ ys) =
    bind (map_result f xs)
         (fun a => bind (map_result f ys) (fun b => Ok (a ++ b))).
Proof.
  induction xs as [|x xs IH]; simpl.
  - by destruct (map_result f ys).
  - destruct (f x) as [y|]; simpl; [|done]. rewrite IH.
    destruct (map_result f xs) as [a|]; simpl; [|done].
    by destruct (map_result f ys).
Qed.

Lemma map_result_ext {X Y : Type} (f g : X -> result Y) (xs : list X) :
  (forall x, f x = g x) -> map_result f xs = map_result g xs.
Proof.
  intros Hfg. induction xs as [|x xs IH]; simpl; [done|].
  by rewrite Hfg, IH.
Qed.

Lemma map_result_total {X Y : Type} (f : X -> result Y) (xs : list X) :
  Forall (fun x => exists y, f x = Ok y) xs ->
  exists ys, map_result f xs = Ok ys.
Proof.
  induction 1 as [|x xs [y Hy] _ [ys IH]]; simpl; [eauto|].
  rewrite Hy, IH. simpl. eauto.
Qed.

Lemma converted_same_confirmedRate (conv : number -> field -> number)
    (rates rates' : gmap string CurrencyRate) (o : Order) :
  (forall k, confirmedRate <$> rates' !! k = confirmedRate <$> rates !! k) ->
  converted conv rates' o = converted conv rates o.
Proof.
  intros Hsame. unfold converted, read_confirmedRate.
  specialize (Hsame (currency o)).
  destruct (rates' !! currency o) as [e'|], (rates !! currency o) as [e|];
    simpl in Hsame; try discriminate; [|done].
  by injection Hsame as ->.
Qed.

Lemma map_result_Ok_inv {X Y : Type} (f : X -> result Y) (xs : list X)
    (ys : list Y) :
  map_result f xs = Ok ys -> Forall (fun x => exists y, f x = Ok y) xs.
Proof.
  revert ys. induction xs as [|x xs IH]; intros ys; simpl; [constructor|].
  destruct (f x) as [y|] eqn:Hy; simpl; [|discriminate].
  destruct (map_result f xs) as [ys'|]; simpl; [|discriminate].
  intros _. constructor; [eauto | by apply (IH ys')].
Qed.

Lemma OrderTotal_same_confirmedRate (conv : number -> field -> number)
    (orders : list (string * Order)) (rates rates' : gmap string CurrencyRate) :
  (forall k, confirmedRate <$> rates' !! k = confirmedRate <$> rates !! k) ->
  OrderTotal conv orders rates' = OrderTotal conv orders rates.
Proof.
  intros Hsame. unfold OrderTotal.
  rewrite (map_result_ext (converted conv rates') (converted conv rates));
    [done|].
  intros o. by apply converted_same_confirmedRate.
Qed.

(** C8. Whatever [getBaseCurrencyPrice] computes: the total of no orders is
    0 and each further order adds [getBaseCurrencyPrice] of its price and of
    the [confirmedRate] of its currency to the total of the orders before
    it (for a currency that has no entry the read yields [undefined] when
    the name is found on the prototype, and throws otherwise); the total
    exists exactly when every order's currency has an entry or is such a
    name; it is the same in two rate states that agree on [confirmedRate],
    so an edit of a known currency, which changes only [rate] and the
    status, leaves it as it is. With the conversion of the spec, one order
    of price 10 in "USD" and a confirmed rate of 2 give a total of 20,
    whatever [rate] holds. *)
Theorem order_total_reads_confirmedRate (conv : number -> field -> number)
    (orders : list (string * Order)) (rates : gmap string CurrencyRate) :
  (OrderTotal conv [] rates = Ok 0%float /\
   forall key o,
     OrderTotal conv (orders ++ [(key, o)]) rates =
       bind (OrderTotal conv orders rates)
            (fun total =>
               match rates !! currency o with
               | Some e => Ok (total + conv (price o) (confirmedRate e))%float
               | None =>
                   if inherited (currency o)
                   then Ok (total + conv (price o) undefined)%float
                   else TypeError
               end)) /\
  ((exists total, OrderTotal conv orders rates = Ok total) <->
   Forall (fun o => is_Some (rates !! currency o.2) \/
                    inherited (currency o.2) = true) orders) /\
  (forall rates',
     (forall k, confirmedRate <$> rates' !! k = confirmedRate <$> rates !! k) ->
     OrderTotal conv orders rates' = OrderTotal conv orders rates) /\
  (forall id e r, rates !! id = Some e ->
     exists rates', ratesReducer rates (EditCurrencyRate id r) = Ok rates' /\
                    OrderTotal conv orders rates' = OrderTotal conv orders rates) /\
  (forall e, rates !! "USD" = Some e -> confirmedRate e = num 2%float ->
     OrderTotal getBaseCurrencyPrice usd_order rates = Ok 20%float).
Proof.
  split; [split|split; [|split; [|split]]].
  - reflexivity.
  - intros key o. unfold OrderTotal, Object_values.
    rewrite map_app, map_result_app. simpl.
    destruct (map_result (converted conv rates) (map snd orders)) as [xs|];
      simpl; [|done].
    unfold converted, read_confirmedRate.
    destruct (rates !! currency o) as [e|]; simpl.
    + by rewrite fold_left_app.
    + destruct (inherited (currency o)); simpl; [|done].
      by rewrite fold_left_app.
  - unfold OrderTotal. split.
    + intros [total Htotal].
      destruct (map_result (converted conv rates) (Object_values orders))
        as [xs|] eqn:Hxs; [|discriminate].
      apply map_result_Ok_inv in Hxs. unfold Object_values in Hxs.
      apply (proj1 (Forall_map snd _ orders)) in Hxs.
      eapply Forall_impl; [exact Hxs|].
      intros [key o] [y Hy]. simpl in *.
      unfold converted, read_confirmedRate in Hy.
      destruct (rates !! currency o) as [e|]; [left; eauto|].
      destruct (inherited (currency o)); [by right | discriminate].
    + intros Hknown.
      destruct (map_result_total (converted conv rates) (Object_values orders))
        as [xs ->]; [|simpl; eauto].
      unfold Object_values. apply Forall_map.
      eapply Forall_impl; [exact Hknown|]. intros [key o] Ho. simpl in *.
      unfold converted, read_confirmedRate.
      destruct Ho as [[e ->]| ->]; simpl; [eauto|].
      destruct (rates !! currency o); simpl; eauto.
  - intros rates'. apply OrderTotal_same_confirmedRate.
  - intros id e r Hid. eexists. split; [reflexivity|].
    apply OrderTotal_same_confirmedRate. intros k.
    destruct (decide (k = id)) as [->|Hne].
    + by rewrite lookup_insert_eq, Hid.
    + by rewrite lookup_insert_ne.
  - intros e He Hconf. unfold OrderTotal, converted, read_confirmedRate. simpl.
    rewrite He. simpl. rewrite Hconf. reflexivity.
Qed.

Lemma order_total_reads_confirmedRate_witness :
  let rates : gmap string CurrencyRate :=
    {[ "USD" := {| rate := num 3.5%float; state := DIRTY;
                   confirmedRate := num 2%float |} ]} in
  let e := {| rate := num 3.5%float; state := DIRTY;
              confirmedRate := num 2%float |} in
  rates !! "USD" = Some e /\ confirmedRate e = num 2%float /\
  OrderTotal getBaseCurrencyPrice usd_order rates = Ok 20%float.
Proof.
  intros rates e.
  assert (Hk : rates !! "USD" = Some e) by apply lookup_singleton_eq.
  split; [exact Hk | split; [reflexivity |]].
  exact (proj2 (proj2 (proj2 (proj2
           (order_total_reads_confirmedRate getBaseCurrencyPrice usd_order
              rates)))) e Hk eq_refl).
Defined.

(** ** C9: values that are not finite numbers *)

(** C9, as the code has it. The provider checks nothing about the value of
    an edit: for every known currency and every number, finite or not, the
    edit is dispatched, the entry's rate becomes that number, its status
    [DIRTY], its [confirmedRate] stays, and a validation carrying that
    number is scheduled. *)
Theorem edit_is_applied_whatever_the_number (w : Provider) (id : string)
    (e : CurrencyRate) (v : number) :
  currencyRates w !! id = Some e ->
  exists w', step w (UserEdit id v) = Ok w' /\
    currencyRates w' !! id = Some {| rate := num v; state := DIRTY;
                                     confirmedRate := confirmedRate e |} /\
    live (host (debounceRef w')) !! nextHandle (host (debounceRef w)) =
      Some {| deadline := clock (host (debounceRef w)) + default_timeout;
              cb_id := id; cb_args := v |}.
Proof.
  intros Hid. eexists. split; [reflexivity|]. split.
  - simpl. by rewrite lookup_insert_eq, Hid.
  - cbn [debounceRef]. rewrite live_debounced. by rewrite decide_True.
Qed.

Lemma edit_is_applied_whatever_the_number_witness :
  let w := provider_init usd_seed in
  let e := {| rate := num 1.1%float; state := ACCEPTED;
              confirmedRate := num 1.1%float |} in
  currencyRates w !! "USD" = Some e /\
  exists w', step w (UserEdit "USD" infinity) = Ok w' /\
    currencyRates w' !! "USD" = Some {| rate := num infinity; state := DIRTY;
                                        confirmedRate := num 1.1%float |} /\
    live (host (debounceRef w')) !! 1%positive =
      Some {| deadline := 300; cb_id := "USD"; cb_args := infinity |}.
Proof.
  intros w e.
  assert (Hk : currencyRates w !! "USD" = Some e) by apply lookup_insert_eq.
  split; [exact Hk|].
  exact (edit_is_applied_whatever_the_number w "USD" e infinity Hk).
Defined.

(** C9 fails as stated: an edit to [NaN] goes through the provider into the
    reducer and replaces the rate of a known currency. *)
Lemma nan_edit_is_applied :
  let w := provider_init usd_seed in
  is_finite nan = false /\
  rate <$> currencyRates w !! "USD" = Some (num 1.1%float) /\
  exists w', step w (UserEdit "USD" nan) = Ok w' /\
             rate <$> currencyRates w' !! "USD" = Some (num nan) /\
             w' <> w.
Proof.
  intros w. split; [reflexivity|]. split; [reflexivity|].
  eexists. split; [reflexivity|]. split; [reflexivity|].
  intros Heq.
  apply (f_equal (fun x => state <$> currencyRates x !! "USD")) in Heq.
  vm_compute in Heq. discriminate.
Qed.

(** ** Concrete runs *)

Lemma edit_sets_rate_and_dirty_only_witness :
  let s := initialCurrencyRatesState usd_seed in
  let e := {| rate := num 1.1%float; state := ACCEPTED;
              confirmedRate := num 1.1%float |} in
  s !! "USD" = Some e /\
  exists s', ratesReducer s (EditCurrencyRate "USD" 1.2%float) = Ok s' /\
     s' !! "USD" = Some {| rate := num 1.2%float; state := DIRTY;
                           confirmedRate := num 1.1%float |}.
Proof.
  intros s e.
  assert (Hk : s !! "USD" = Some e) by apply lookup_insert_eq.
  split; [exact Hk|].
  exact (proj1 (edit_sets_rate_and_dirty_only s "USD" e 1.2%float Hk)).
Defined.

Lemma ratesReducer_modifies_only_target_witness :
  let s : gmap string CurrencyRate :=
    <["EUR" := {| rate := num 0.9%float; state := DIRTY;
                  confirmedRate := num 0.8%float |}]>
      (initialCurrencyRatesState usd_seed) in
  let a := IsValidResult "EUR" false in
  let s' := <["EUR" := {| rate := num 0.8%float; state := ACCEPTED;
                          confirmedRate := num 0.8%float |}]> s in
  ratesReducer s a = Ok s' /\ "USD" <> target a /\ s' !! "USD" = s !! "USD".
Proof.
  intros s a s'.
  assert (Hred : ratesReducer s a = Ok s') by reflexivity.
  assert (Hne : "USD" <> target a) by discriminate.
  split; [exact Hred | split; [exact Hne |]].
  exact (proj2 (proj2 (ratesReducer_modifies_only_target s a) s' Hred)
           "USD" Hne).
Defined.

(** The race of the spec, through the provider: the validation of 1.2 is in
    flight when the rate is edited to 1.3; when it settles as accepted, 1.3 is
    confirmed, and the timer set by the second edit is still pending. *)
Example race_accept_confirms_latest_edit :
  exists w,
    run_events step (provider_init usd_seed)
      [UserEdit "USD" 1.2%float; Elapse 300; TimerFires 1;
       UserEdit "USD" 1.3%float; Settles 0 true] = Ok w /\
    currencyRates w !! "USD" =
      Some {| rate := num 1.3%float; state := ACCEPTED;
              confirmedRate := num 1.3%float |} /\
    inflight w = [] /\
    live (host (debounceRef w)) !! 2%positive =
      Some {| deadline := 600; cb_id := "USD"; cb_args := 1.3%float |}.
Proof.
  eexists. split; [vm_compute; reflexivity|]. repeat split; reflexivity.
Qed.

(** The accept and the reject path of the spec, through the provider. *)
Example accept_path :
  exists w,
    run_events ui_step (provider_init usd_seed)
      [UserEdit "USD" 1.2%float; Elapse 300; TimerFires 1; Settles 0 true]
      = Ok w /\
    currencyRates w !! "USD" =
      Some {| rate := num 1.2%float; state := ACCEPTED;
              confirmedRate := num 1.2%float |}.
Proof.
  eexists. split; [vm_compute; reflexivity|]. reflexivity.
Qed.

Example reject_path :
  exists w,
    run_events ui_step (provider_init usd_seed)
      [UserEdit "USD" 1.2%float; Elapse 300; TimerFires 1; Settles 0 false]
      = Ok w /\
    currencyRates w !! "USD" =
      Some {| rate := num 1.1%float; state := ACCEPTED;
              confirmedRate := num 1.1%float |}.
Proof.
  eexists. split; [vm_compute; reflexivity|]. reflexivity.
Qed.

(** A timer does not fire before its delay has passed. *)
Example timer_not_due :
  exists w,
    run_events step (provider_init usd_seed)
      [UserEdit "USD" 1.2%float; Elapse 299; TimerFires 1] = Ok w /\
    inflight w = [] /\
    state <$> currencyRates w !! "USD" = Some DIRTY.
Proof.
  eexists. split; [vm_compute; reflexivity|]. split; reflexivity.
Qed.

(** * Further properties of the code *)

Set Warnings "-clear-no-such-hyp".

(** ** The initial state *)

Lemma fromEntries_list_to_map {V : Type} (entries : list (string * V)) :
  fromEntries entries = list_to_map (reverse entries).
Proof.
  unfold fromEntries.
  enough (Hgen : forall m : gmap string V,
            fold_left (fun m kv => <[kv.1 := kv.2]> m) entries m
            = list_to_map (reverse entries) ∪ m).
  { rewrite Hgen. apply (right_id_L ∅ (∪)). }
  induction entries as [|[k v] entries IH]; intros m; simpl.
  - by rewrite (left_id_L ∅ (∪)).
  - rewrite IH, reverse_cons, list_to_map_app. simpl.
    rewrite <- (assoc_L (∪)). f_equal.
    rewrite insert_empty. by rewrite <- insert_union_singleton_l.
Qed.

Lemma seed_entries_keys (seeds : list (string * number)) :
  (map (fun kv : string * number =>
          (kv.1, {| rate := num kv.2; state := ACCEPTED;
                    confirmedRate := num kv.2 |})) seeds).*1 = seeds.*1.
Proof. induction seeds as [|[k r] seeds IH]; [done|]. simpl. by f_equal. Qed.

Lemma initial_state_of_seed_keys (seeds : list (string * number)) :
  dom (initialCurrencyRatesState seeds) = list_to_set (initialCurrencies seeds) /\
  (forall id e, initialCurrencyRatesState seeds !! id = Some e ->
     exists r, (id, r) ∈ seeds /\
       e = {| rate := num r; state := ACCEPTED; confirmedRate := num r |}).
Proof.
  unfold initialCurrencyRatesState, initialCurrencies.
  rewrite fromEntries_list_to_map. split.
  - rewrite dom_list_to_map_L, fmap_reverse, seed_entries_keys.
    apply set_eq. intros k.
    by rewrite !elem_of_list_to_set, elem_of_reverse.
  - intros id e He. apply elem_of_list_to_map_2 in He.
    apply elem_of_reverse, list_elem_of_fmap in He as ([k r] & [= -> ->] & Hin).
    by exists r.
Qed.

(** The initial state has exactly the keys of the seed; each entry is
    [ACCEPTED] with [rate] and [confirmedRate] equal to a seed rate of its
    key, and when the seed has no key twice every seed rate is found under
    its key. *)
Theorem initial_state_of_seed (seeds : list (string * number)) :
  dom (initialCurrencyRatesState seeds) = list_to_set (initialCurrencies seeds) /\
  (forall id e, initialCurrencyRatesState seeds !! id = Some e ->
     exists r, (id, r) ∈ seeds /\
       e = {| rate := num r; state := ACCEPTED; confirmedRate := num r |}) /\
  (NoDup (initialCurrencies seeds) ->
   forall id r, (id, r) ∈ seeds ->
     initialCurrencyRatesState seeds !! id =
       Some {| rate := num r; state := ACCEPTED; confirmedRate := num r |}).
Proof.
  unfold initialCurrencyRatesState, initialCurrencies.
  rewrite fromEntries_list_to_map.
  split; [|split].
  - rewrite dom_list_to_map_L, fmap_reverse, seed_entries_keys.
    apply set_eq. intros k.
    by rewrite !elem_of_list_to_set, elem_of_reverse.
  - intros id e He. apply elem_of_list_to_map_2 in He.
    apply elem_of_reverse, list_elem_of_fmap in He as ([k r] & [= -> ->] & Hin).
    by exists r.
  - intros Hnodup id r Hin.
    apply elem_of_list_to_map_1.
    + by rewrite fmap_reverse, seed_entries_keys, reverse_Permutation.
    + apply elem_of_reverse, list_elem_of_fmap. by exists (id, r).
Qed.

Lemma initial_state_of_seed_witness :
  let seeds := [("EUR", 1.12%float); ("USD", 1.33%float)] in
  NoDup (initialCurrencies seeds) /\ ("USD", 1.33%float) ∈ seeds /\
  initialCurrencyRatesState seeds !! "USD" =
    Some {| rate := num 1.33%float; state := ACCEPTED;
            confirmedRate := num 1.33%float |}.
Proof.
  intros seeds.
  assert (Hnd : NoDup (initialCurrencies seeds)).
  { unfold initialCurrencies. simpl.
    apply NoDup_cons. split; [|apply NoDup_singleton].
    intros Hin. apply list_elem_of_singleton in Hin. discriminate. }
  assert (Hin : ("USD", 1.33%float) ∈ seeds).
  { apply list_elem_of_further, list_elem_of_here. }
  split; [exact Hnd | split; [exact Hin |]].
  exact (proj2 (proj2 (initial_state_of_seed seeds)) Hnd "USD" 1.33%float Hin).
Defined.

(** ** How transitions of the reducer compose *)

(** An edit overrides the edits and validation starts made for the same
    currency just before it: the state after the burst is the state after
    the last edit alone. *)
Theorem last_edit_of_a_burst_wins (s : gmap string CurrencyRate)
    (id : string) (r : number) (acts : list RatesAction) :
  Forall (fun a => is_IsValidResult a = false /\ target a = id) acts ->
  run s (acts ++ [EditCurrencyRate id r]) = ratesReducer s (EditCurrencyRate id r).
Proof.
  intros Hacts. revert s.
  induction Hacts as [|a acts [Ha Hid] _ IH]; intros s; [done|].
  change (run s ((a :: acts) ++ [EditCurrencyRate id r]))
    with (bind (ratesReducer s a)
               (fun s' => run s' (acts ++ [EditCurrencyRate id r]))).
  destruct a as [ia ra|ia|ia resa]; simpl in Ha, Hid; try discriminate;
    subst ia; simpl; rewrite IH; simpl;
    by rewrite lookup_insert_eq, insert_insert_eq.
Qed.

Lemma last_edit_of_a_burst_wins_witness :
  let s := initialCurrencyRatesState usd_seed in
  let acts := [EditCurrencyRate "USD" 1.2%float; StartIsValidRequest "USD";
               EditCurrencyRate "USD" 1.25%float] in
  Forall (fun a => is_IsValidResult a = false /\ target a = "USD") acts /\
  run s (acts ++ [EditCurrencyRate "USD" 1.3%float])
    = ratesReducer s (EditCurrencyRate "USD" 1.3%float).
Proof.
  intros s acts.
  assert (Hacts : Forall (fun a => is_IsValidResult a = false /\ target a = "USD")
                         acts).
  { repeat (constructor; [split; reflexivity|]). constructor. }
  split; [exact Hacts|].
  exact (last_edit_of_a_burst_wins s "USD" 1.3%float acts Hacts).
Defined.

Lemma reachable_converged (seeds : list (string * number))
    (s : gmap string CurrencyRate) :
  reachable seeds s -> converged s.
Proof.
  induction 1 as [|s a s' _ IH Hred].
  - apply converged_fromEntries. intros k e Hk. by rewrite lookup_empty in Hk.
  - by apply (converged_step s s' a).
Qed.

(** In a reachable state, a validation result for an entry that is
    [ACCEPTED] changes nothing, whatever the result says. *)
Theorem result_for_accepted_entry_changes_nothing
    (seeds : list (string * number)) (s : gmap string CurrencyRate)
    (id : string) (e : CurrencyRate) (res : bool) :
  reachable seeds s -> s !! id = Some e -> state e = ACCEPTED ->
  ratesReducer s (IsValidResult id res) = Ok s.
Proof.
  intros Hreach Hid Hst.
  pose proof (reachable_converged seeds s Hreach id e Hid Hst) as Hconv.
  simpl. rewrite Hid. f_equal. apply insert_id. rewrite Hid. f_equal.
  destruct e as [r st c]. simpl in *. subst. by destruct res.
Qed.

Lemma result_for_accepted_entry_changes_nothing_witness :
  let s := initialCurrencyRatesState usd_seed in
  let e := {| rate := num 1.1%float; state := ACCEPTED;
              confirmedRate := num 1.1%float |} in
  reachable usd_seed s /\ s !! "USD" = Some e /\ state e = ACCEPTED /\
  ratesReducer s (IsValidResult "USD" false) = Ok s.
Proof.
  intros s e.
  assert (Hk : s !! "USD" = Some e) by apply lookup_insert_eq.
  split; [apply reachable_init | split; [exact Hk | split; [reflexivity |]]].
  exact (result_for_accepted_entry_changes_nothing usd_seed s "USD" e false
           (reachable_init usd_seed) Hk eq_refl).
Defined.

(** ** The keyed debounce over whole runs *)

Section DebounceRuns.

Context {A : Type}.
Implicit Types (d : Debounce A) (k id : string) (t : positive)
  (tm : Timeout A) (ev : DebounceEvent A) (evs : list (DebounceEvent A)).


Lemma calls_within_step timeout d ev (c : string * A) :
  c ∈ (debounce_step timeout d ev).2 ->
  exists t tm, live (host d) !! t = Some tm /\ c = (cb_id tm, cb_args tm).
Proof.
  destruct ev as [id args|dt|t]; simpl.
  - intros Hc. by apply elem_of_nil in Hc.
  - intros Hc. by apply elem_of_nil in Hc.
  - destruct (expire (host d) t) as [[h call]|] eqn:Hexp; simpl.
    + apply expire_Some in Hexp as (tm & Htm & _ & -> & _).
      intros Hc. apply list_elem_of_singleton in Hc. eauto.
    + intros Hc. by apply elem_of_nil in Hc.
Qed.

Lemma live_after_step timeout d ev t tm :
  live (host (debounce_step timeout d ev).1) !! t = Some tm ->
  live (host d) !! t = Some tm \/
  exists id args, ev = Call id args /\ cb_id tm = id /\ cb_args tm = args.
Proof.
  destruct ev as [id args|dt|t']; unfold debounce_step; cbn [fst].
  - rewrite live_debounced.
    destruct (decide (t = nextHandle (host d))).
    + intros [= <-]. right. by exists id, args.
    + destruct (decide (debounceStates d !! id = Some t)); [discriminate|].
      by left.
  - by left.
  - destruct (expire (host d) t') as [[h call]|] eqn:Hexp; [|by left].
    apply expire_Some in Hexp as (tm' & _ & _ & _ & Hl & _). simpl.
    rewrite Hl. intros Ht. apply lookup_delete_Some in Ht as [_ Ht]. by left.
Qed.

Lemma calls_come_from_timers_or_calls timeout d evs (S : list (string * A)) :
  (forall t tm, live (host d) !! t = Some tm -> (cb_id tm, cb_args tm) ∈ S) ->
  forall c, c ∈ (debounce_run timeout d evs).2 -> c ∈ S ++ calls_made evs.
Proof.
  revert d S. induction evs as [|ev evs IH]; intros d S Hlive c; simpl.
  - intros Hc. by apply elem_of_nil in Hc.
  - pose proof (calls_within_step timeout d ev c) as Hstep.
    pose proof (fun t tm => live_after_step timeout d ev t tm) as Hafter.
    destruct (debounce_step timeout d ev) as [d1 c1]. simpl in Hstep, Hafter.
    specialize (IH d1 (S ++ calls_made [ev])).
    destruct (debounce_run timeout d1 evs) as [d2 c2]. simpl in *.
    intros Hc. apply elem_of_app in Hc as [Hc|Hc].
    + destruct (Hstep Hc) as (t & tm & Htm & ->).
      apply elem_of_app. left. by apply (Hlive t).
    + assert (Hin : c ∈ (S ++ calls_made [ev]) ++ calls_made evs).
      { apply IH; [|done]. intros t tm Htm.
        destruct (Hafter t tm Htm) as [Hold|(id & args & -> & <- & <-)].
        - apply elem_of_app. left. by apply (Hlive t).
        - apply elem_of_app. right. simpl. apply list_elem_of_here. }
      rewrite <- (assoc_L (++)) in Hin.
      destruct ev as [id args|dt|t]; simpl in Hin; done.
Qed.

Lemma step_accounts_for_calls timeout d k ev :
  debounce_wf d ->
  length (calls_for k (debounce_step timeout d ev).2)
    + size (pending (debounce_step timeout d ev).1 k)
  <= size (pending d k) + length (calls_for k (calls_made [ev])).
Proof.
  intros Hwf. destruct ev as [id args|dt|t]; unfold debounce_step;
    cbn [fst snd calls_made].
  - destruct (decide (id = k)) as [->|Hne].
    + rewrite pending_debounced_same, map_size_singleton by done.
      unfold calls_for. rewrite filter_cons_True by done. simpl. lia.
    + rewrite pending_debounced_other by done. simpl. lia.
  - simpl. unfold pending. simpl. lia.
  - destruct (expire (host d) t) as [[h call]|] eqn:Hexp; cbn [fst snd];
      [|simpl; lia].
    rewrite (pending_expired d k t h call Hexp).
    apply expire_Some in Hexp as (tm & Htm & _ & -> & _).
    unfold calls_for at 1. destruct (decide (cb_id tm = k)) as [Hk|Hk].
    + rewrite filter_cons_True by done.
      rewrite map_size_delete_Some by (exists tm; by apply pending_lookup).
      assert (size (pending d k) <> 0).
      { apply map_size_ne_0_lookup_2 with t. exists tm.
        by apply pending_lookup. }
      simpl. lia.
    + rewrite filter_cons_False by done.
      rewrite map_size_delete_None; [simpl; lia|].
      apply map_lookup_filter_None_2. right. intros tm'. rewrite Htm.
      by intros [= <-].
Qed.

Lemma run_accounts_for_calls timeout d k evs :
  debounce_wf d ->
  length (calls_for k (debounce_run timeout d evs).2)
    + size (pending (debounce_run timeout d evs).1 k)
  <= size (pending d k) + length (calls_for k (calls_made evs)).
Proof.
  revert d. induction evs as [|ev evs IH]; intros d Hwf; [simpl; lia|].
  cbn [debounce_run].
  pose proof (step_accounts_for_calls timeout d k ev Hwf) as Hstep.
  pose proof (debounce_wf_step timeout d ev Hwf) as Hwf1.
  destruct (debounce_step timeout d ev) as [d1 c1]. cbn [fst snd] in Hstep, Hwf1.
  specialize (IH d1 Hwf1).
  destruct (debounce_run timeout d1 evs) as [d2 c2]. cbn [fst snd] in *.
  unfold calls_for in *. rewrite filter_app, length_app.
  assert (Hsplit : length (filter (fun c : string * A => c.1 = k) (calls_made (ev :: evs)))
            = length (filter (fun c : string * A => c.1 = k) (calls_made [ev]))
              + length (filter (fun c : string * A => c.1 = k) (calls_made evs))).
  { destruct ev as [id args|dt|t]; simpl; try done.
    destruct (decide (id = k)).
    - by rewrite !filter_cons_True.
    - by rewrite !filter_cons_False. }
  rewrite Hsplit. lia.
Qed.


End DebounceRuns.



(** [fn] is only ever called with a key and arguments that were passed to
    the debounced function earlier in the run. *)
Theorem fn_called_only_with_submitted_arguments {A : Type} (timeout : N)
    (evs : list (DebounceEvent A)) (c : string * A) :
  c ∈ (debounce_run timeout debounce_init evs).2 -> c ∈ calls_made evs.
Proof.
  intros Hc.
  apply (calls_come_from_timers_or_calls timeout debounce_init evs [] ); [|done].
  intros t tm. simpl. by rewrite lookup_empty.
Qed.

Lemma fn_called_only_with_submitted_arguments_witness :
  let evs := [Call "USD" 1.2%float; Call "USD" 1.3%float; Wait 300;
              Fire 1%positive; Fire 2%positive] in
  ("USD", 1.3%float) ∈ (debounce_run 300 debounce_init evs).2 /\
  ("USD", 1.3%float) ∈ calls_made evs.
Proof.
  intros evs.
  assert (Hc : ("USD", 1.3%float) ∈ (debounce_run 300 debounce_init evs).2).
  { apply list_elem_of_here. }
  split; [exact Hc|].
  exact (fn_called_only_with_submitted_arguments 300 evs _ Hc).
Defined.

(** Over a whole run, [fn] is called for a key at most as often as the
    debounced function was called for it, the timer still pending counted
    in. *)
Theorem fn_called_no_more_often_than_requested {A : Type} (timeout : N)
    (evs : list (DebounceEvent A)) (k : string) :
  length (calls_for k (debounce_run timeout debounce_init evs).2)
    + size (pending (debounce_run timeout debounce_init evs).1 k)
  <= length (calls_for k (calls_made evs)).
Proof.
  pose proof (run_accounts_for_calls timeout debounce_init k evs
                debounce_wf_init) as Hrun.
  assert (Hinit : size (pending (A:=A) debounce_init k) = 0).
  { unfold pending. simpl. by rewrite map_filter_empty, map_size_empty. }
  lia.
Qed.



(** ** The provider in every run *)

Lemma ratesReducer_keeps_entries (s s' : gmap string CurrencyRate)
    (a : RatesAction) (k : string) :
  ratesReducer s a = Ok s' -> is_Some (s !! k) -> is_Some (s' !! k).
Proof.
  intros Hred Hk. apply elem_of_dom. apply elem_of_dom in Hk.
  rewrite (ratesReducer_dom _ _ _ Hred). set_solver.
Qed.

Lemma ratesReducer_writes_target (s s' : gmap string CurrencyRate)
    (a : RatesAction) :
  ratesReducer s a = Ok s' -> is_Some (s' !! target a).
Proof.
  intros Hred. apply elem_of_dom.
  rewrite (ratesReducer_dom _ _ _ Hred). set_solver.
Qed.

Lemma dispatch_Ok (w w' : Provider) (a : RatesAction) :
  dispatch w a = Ok w' ->
  ratesReducer (currencyRates w) a = Ok (currencyRates w') /\
  debounceRef w' = debounceRef w /\ inflight w' = inflight w.
Proof.
  unfold dispatch. destruct (ratesReducer (currencyRates w) a) as [s|];
    simpl; [|discriminate].
  by intros [= <-].
Qed.

Lemma provider_sound_init seeds : provider_sound (provider_init seeds).
Proof.
  split; [apply debounce_wf_init|]. split; [|split].
  - apply converged_fromEntries. intros k e Hk. by rewrite lookup_empty in Hk.
  - intros t tm. simpl. by rewrite lookup_empty.
  - intros i id r. simpl. by rewrite lookup_nil.
Qed.

Lemma provider_sound_step w ev :
  provider_sound w ->
  exists w', step w ev = Ok w' /\ provider_sound w' /\
             dom (currencyRates w) ⊆ dom (currencyRates w').
Proof.
  intros (Hwf & Hconv & Htimers & Hcalls).
  destruct ev as [id r|dt|t|i res]; unfold step.
  - eexists. split; [reflexivity|].
    pose (a := EditCurrencyRate id r).
    assert (Hred : ratesReducer (currencyRates w) a = Ok
              (<[id := {| rate := num r; state := DIRTY;
                          confirmedRate := spread_confirmedRate
                                             (currencyRates w !! id) |}]>
                 (currencyRates w))) by reflexivity.
    split; [split; [|split; [|split]]|].
    + by apply debounce_wf_debounced.
    + by apply (converged_step _ _ a Hconv).
    + intros t tm. cbn [debounceRef currencyRates]. rewrite live_debounced.
      destruct (decide (t = nextHandle (host (debounceRef w)))).
      * intros [= <-]. simpl. rewrite lookup_insert_eq. eauto.
      * destruct (decide (debounceStates (debounceRef w) !! id = Some t));
          [discriminate|].
        intros Htm. apply (ratesReducer_keeps_entries _ _ a _ Hred).
        by apply (Htimers t).
    + intros i id' r' Hi. apply (ratesReducer_keeps_entries _ _ a _ Hred).
      by apply (Hcalls i id' r').
    + simpl. rewrite dom_insert_L. set_solver.
  - eexists. split; [reflexivity|]. split; [|done].
    split; [exact Hwf|]. by split.
  - pose proof (debounce_wf_step default_timeout (debounceRef w) (Fire t) Hwf)
      as Hwf'. unfold debounce_step in Hwf'.
    destruct (expire (host (debounceRef w)) t) as [[h [id r]]|] eqn:Hexp.
    + apply expire_Some in Hexp as (tm & Htm & _ & [= -> ->] & Hl & _).
      eexists. split; [reflexivity|].
      pose (a := StartIsValidRequest (cb_id tm)).
      assert (Hred : ratesReducer (currencyRates w) a = Ok
                (<[cb_id tm := {| rate := spread_rate (currencyRates w !! cb_id tm);
                                  state := IN_PROGRESS;
                                  confirmedRate := spread_confirmedRate
                                    (currencyRates w !! cb_id tm) |}]>
                   (currencyRates w))) by reflexivity.
      split; [split; [|split; [|split]]|].
      * exact Hwf'.
      * by apply (converged_step _ _ a Hconv).
      * intros t' tm'. simpl. rewrite Hl. intros Ht'.
        apply lookup_delete_Some in Ht' as [_ Ht'].
        apply (ratesReducer_keeps_entries _ _ a _ Hred). by apply (Htimers t').
      * intros i id' r'. simpl. intros Hi.
        apply lookup_app_Some in Hi as [Hi|[_ Hi]].
        -- apply (ratesReducer_keeps_entries _ _ a _ Hred).
           by apply (Hcalls i id' r').
        -- apply list_lookup_singleton_Some in Hi as [_ [= <- _]].
           rewrite lookup_insert_eq. eauto.
      * simpl. rewrite dom_insert_L. set_solver.
    + exists w. split; [done|]. by split.
  - unfold validation_settle.
    destruct (inflight w !! i) as [[id r]|] eqn:Hi.
    + destruct (Hcalls i id r Hi) as [e He].
      unfold dispatch. simpl. rewrite He. simpl.
      eexists. split; [reflexivity|].
      pose (a := IsValidResult id res).
      assert (Hred : ratesReducer (currencyRates w) a = Ok
                (<[id := {| rate := if res then rate e else confirmedRate e;
                            state := ACCEPTED;
                            confirmedRate := if res then rate e
                                             else confirmedRate e |}]>
                   (currencyRates w))).
      { simpl. by rewrite He. }
      split; [split; [|split; [|split]]|].
      * exact Hwf.
      * by apply (converged_step _ _ a Hconv).
      * intros t' tm' Ht'. simpl.
        apply (ratesReducer_keeps_entries _ _ a _ Hred). by apply (Htimers t').
      * intros j id' r'. simpl. intros Hj.
        apply (ratesReducer_keeps_entries _ _ a _ Hred).
        apply list_elem_of_lookup_2 in Hj.
        assert (Hin : (id', r') ∈ inflight w)
          by by apply list_elem_of_delete_inv in Hj.
        apply list_elem_of_lookup in Hin as [j' Hj'].
        by apply (Hcalls j' id' r').
      * simpl. rewrite dom_insert_L. set_solver.
    + exists w. split; [done|]. by split.
Qed.

Lemma provider_sound_run evs w :
  provider_sound w ->
  exists w', run_events step w evs = Ok w' /\ provider_sound w' /\
             dom (currencyRates w) ⊆ dom (currencyRates w').
Proof.
  revert w. induction evs as [|ev evs IH]; intros w Hw; simpl.
  - by exists w.
  - destruct (provider_sound_step w ev Hw) as (w1 & -> & Hw1 & Hdom1). simpl.
    destruct (IH w1 Hw1) as (w2 & Hrun & Hw2 & Hdom2).
    exists w2. split; [done|]. split; [done|]. set_solver.
Qed.

Lemma step_keeps_keys w w' ev :
  provider_sound w -> step w ev = Ok w' ->
  (forall id r, ev = UserEdit id r -> id ∈ dom (currencyRates w)) ->
  dom (currencyRates w') = dom (currencyRates w).
Proof.
  intros (_ & _ & Htimers & Hcalls) Hstep Hknown.
  destruct ev as [id r|dt|t|i res]; unfold step in Hstep.
  - injection Hstep as <-. simpl. apply dom_insert_lookup_L, elem_of_dom.
    by apply (Hknown id r).
  - by injection Hstep as <-.
  - destruct (expire (host (debounceRef w)) t) as [[h [id r]]|] eqn:Hexp.
    + apply expire_Some in Hexp as (tm & Htm & _ & [= -> ->] & _).
      injection Hstep as <-. simpl. apply dom_insert_lookup_L.
      by apply (Htimers t).
    + by injection Hstep as <-.
  - unfold validation_settle in Hstep.
    destruct (inflight w !! i) as [[id r]|] eqn:Hi.
    + apply dispatch_Ok in Hstep as (Hred & _). simpl in Hred.
      destruct (Hcalls i id r Hi) as [e He]. rewrite He in Hred.
      injection Hred as <-. apply dom_insert_lookup_L. rewrite He. eauto.
    + by injection Hstep as <-.
Qed.

(** Whatever events reach the provider, in whatever order, no dispatch makes
    the reducer throw; in the state reached every accepted entry has
    [rate = confirmedRate], every outstanding validation call names a
    currency that has an entry, and every currency of the seed still has
    one. *)
Theorem provider_never_throws (initialCurrencyRates : list (string * number))
    (evs : list Event) :
  exists w,
    run_events step (provider_init initialCurrencyRates) evs = Ok w /\
    (forall k e, currencyRates w !! k = Some e -> state e = ACCEPTED ->
                 rate e = confirmedRate e) /\
    (forall i id r, inflight w !! i = Some (id, r) ->
                    is_Some (currencyRates w !! id)) /\
    (forall id, id ∈ initialCurrencies initialCurrencyRates ->
                is_Some (currencyRates w !! id)).
Proof.
  destruct (provider_sound_run evs (provider_init initialCurrencyRates)
              (provider_sound_init _)) as (w & Hrun & (_ & Hconv & _ & Hcalls) & Hdom).
  exists w. split; [done|]. split; [exact Hconv|]. split; [exact Hcalls|].
  intros id Hid. apply elem_of_dom, Hdom. simpl.
  rewrite (proj1 (initial_state_of_seed_keys initialCurrencyRates)).
  by apply elem_of_list_to_set.
Qed.

Lemma run_keeps_keys evs w w' :
  provider_sound w -> run_events step w evs = Ok w' ->
  Forall (fun id => id ∈ dom (currencyRates w)) (edited_ids evs) ->
  dom (currencyRates w') = dom (currencyRates w).
Proof.
  revert w. induction evs as [|ev evs IH]; intros w Hw Hrun Hids; simpl in Hrun.
  - by injection Hrun as <-.
  - destruct (provider_sound_step w ev Hw) as (w1 & Hstep & Hw1 & _).
    rewrite Hstep in Hrun. simpl in Hrun.
    assert (Hdom1 : dom (currencyRates w1) = dom (currencyRates w)).
    { apply (step_keeps_keys w w1 ev Hw Hstep). intros id r ->.
      simpl in Hids. by apply Forall_cons in Hids as [? _]. }
    rewrite <- Hdom1. apply IH; [done..|]. rewrite Hdom1.
    destruct ev; simpl in Hids; try done.
    by apply Forall_cons in Hids as [_ ?].
Qed.

(** As long as the edits name currencies of the seed, as the rendered inputs
    do, the provider's state keeps exactly the keys of the seed, whatever
    timers fire and whatever validations settle. *)
Theorem provider_keeps_the_seed_currencies
    (initialCurrencyRates : list (string * number)) (evs : list Event)
    (w : Provider) :
  Forall (fun id => id ∈ initialCurrencies initialCurrencyRates)
         (edited_ids evs) ->
  run_events step (provider_init initialCurrencyRates) evs = Ok w ->
  dom (currencyRates w) = list_to_set (initialCurrencies initialCurrencyRates).
Proof.
  intros Hids Hrun.
  rewrite <- (proj1 (initial_state_of_seed_keys initialCurrencyRates)).
  apply (run_keeps_keys evs (provider_init initialCurrencyRates) w
           (provider_sound_init _) Hrun).
  eapply Forall_impl; [exact Hids|]. intros id Hid. simpl.
  rewrite (proj1 (initial_state_of_seed_keys initialCurrencyRates)).
  by apply elem_of_list_to_set.
Qed.

Lemma provider_keeps_the_seed_currencies_witness :
  let evs := [UserEdit "USD" 1.2%float; Elapse 300; TimerFires 1;
              UserEdit "USD" 1.3%float; Settles 0 false] in
  let w := {| currencyRates :=
                {[ "USD" := {| rate := num 1.1%float; state := ACCEPTED;
                               confirmedRate := num 1.1%float |} ]};
              debounceRef :=
                {| host := {| clock := 300; nextHandle := 3;
                              live := {[ 2%positive :=
                                {| deadline := 600; cb_id := "USD";
                                   cb_args := 1.3%float |} ]} |};
                   debounceStates := {[ "USD" := 2%positive ]} |};
              inflight := [] |} in
  Forall (fun id => id ∈ initialCurrencies usd_seed) (edited_ids evs) /\
  run_events step (provider_init usd_seed) evs = Ok w /\
  dom (currencyRates w) = list_to_set (initialCurrencies usd_seed).
Proof.
  intros evs w.
  assert (Hids : Forall (fun id => id ∈ initialCurrencies usd_seed)
                        (edited_ids evs)).
  { repeat (constructor; [apply list_elem_of_here|]). constructor. }
  assert (Hrun : run_events step (provider_init usd_seed) evs = Ok w).
  { vm_compute. reflexivity. }
  split; [exact Hids | split; [exact Hrun |]].
  exact (provider_keeps_the_seed_currencies usd_seed evs w Hids Hrun).
Defined.

(** Orders whose currencies are among those [CurrencySelector] offers have a
    total in every state the provider reaches: the read of [confirmedRate]
    in [OrderTotal] never goes through a missing entry. *)
Theorem order_total_exists_for_selectable_currencies
    (initialCurrencyRates : list (string * number)) (evs : list Event)
    (w : Provider) (conv : number -> field -> number)
    (orders : list (string * Order)) :
  run_events step (provider_init initialCurrencyRates) evs = Ok w ->
  Forall (fun o => currency o.2 ∈ initialCurrencies initialCurrencyRates)
         orders ->
  exists total, OrderTotal conv orders (currencyRates w) = Ok total.
Proof.
  intros Hrun Horders.
  destruct (provider_sound_run evs (provider_init initialCurrencyRates)
              (provider_sound_init _)) as (w' & Hrun' & _ & Hdom).
  rewrite Hrun in Hrun'. injection Hrun' as <-.
  unfold OrderTotal.
  destruct (map_result_total (converted conv (currencyRates w))
              (Object_values orders)) as [xs ->]; [|simpl; eauto].
  unfold Object_values. apply Forall_map.
  eapply Forall_impl; [exact Horders|]. intros [key o] Hcur. simpl in *.
  assert (Hin : currency o ∈ dom (currencyRates w)).
  { apply Hdom. simpl.
    rewrite (proj1 (initial_state_of_seed_keys initialCurrencyRates)).
    by apply elem_of_list_to_set. }
  apply elem_of_dom in Hin as [e He].
  unfold converted, read_confirmedRate. rewrite He. simpl. eauto.
Qed.

Lemma order_total_exists_for_selectable_currencies_witness :
  let evs := [UserEdit "USD" 1.2%float; UserEdit "EUR" 0.9%float] in
  let w := {| currencyRates :=
                <["EUR" := {| rate := num 0.9%float; state := DIRTY;
                              confirmedRate := undefined |}]>
                  (<["USD" := {| rate := num 1.2%float; state := DIRTY;
                                 confirmedRate := num 1.1%float |}]>
                     (initialCurrencyRatesState usd_seed));
              debounceRef :=
                debounced default_timeout
                  (debounced default_timeout debounce_init "USD" 1.2%float)
                  "EUR" 0.9%float;
              inflight := [] |} in
  run_events step (provider_init usd_seed) evs = Ok w /\
  Forall (fun o => currency o.2 ∈ initialCurrencies usd_seed) usd_order /\
  exists total, OrderTotal getBaseCurrencyPrice usd_order (currencyRates w)
                = Ok total.
Proof.
  intros evs w.
  assert (Hrun : run_events step (provider_init usd_seed) evs = Ok w)
    by reflexivity.
  assert (Horders : Forall (fun o => currency o.2 ∈ initialCurrencies usd_seed)
                           usd_order).
  { constructor; [apply list_elem_of_here | constructor]. }
  split; [exact Hrun | split; [exact Horders |]].
  exact (order_total_exists_for_selectable_currencies usd_seed evs w
           getBaseCurrencyPrice usd_order Hrun Horders).
Defined.

(** ** The provider when edits come through the inputs *)












(** ** The orders reducer *)

Lemma ordersReducer_whole (s : gmap string OrderEntry) (a : OrdersAction) :
  orders_whole s ->
  match a with Add _ => True | _ => orders_target a ∈ dom s end ->
  orders_whole (ordersReducer s a).
Proof.
  intros Hs Ha k e.
  destruct a as [payload|id value|id value]; simpl in *.
  - destruct (decide (k = order_id payload)) as [->|Hne].
    + rewrite lookup_insert_eq. intros [= <-]. by exists payload.
    + rewrite lookup_insert_ne by done. apply Hs.
  - destruct (decide (k = id)) as [->|Hne].
    + rewrite lookup_insert_eq. intros [= <-].
      apply elem_of_dom in Ha as [e He]. rewrite He. simpl.
      destruct (Hs id e He) as (o & -> & Hid).
      by exists {| order_id := order_id o; title := title o;
                   price := price o; currency := value |}.
    + rewrite lookup_insert_ne by done. apply Hs.
  - destruct (decide (k = id)) as [->|Hne].
    + rewrite lookup_insert_eq. intros [= <-].
      apply elem_of_dom in Ha as [e He]. rewrite He. simpl.
      destruct (Hs id e He) as (o & -> & Hid).
      by exists {| order_id := order_id o; title := title o;
                   price := value; currency := currency o |}.
    + rewrite lookup_insert_ne by done. apply Hs.
Qed.

Lemma ordersReducer_dom (s : gmap string OrderEntry) (a : OrdersAction) :
  dom (ordersReducer s a) = {[orders_target a]} ∪ dom s.
Proof. destruct a; simpl; by rewrite dom_insert_L. Qed.

(** Orders are never removed, and as long as every edit names an order the
    state holds, every entry keeps all its properties and stays under its
    own id, and the keys are those of the start plus the ids added. *)
Theorem orders_stay_whole (s : gmap string OrderEntry)
    (actions : list OrdersAction) :
  dom s ⊆ dom (orders_run s actions) /\
  (orders_whole s -> edits_name_orders s actions ->
   orders_whole (orders_run s actions) /\
   dom (orders_run s actions) = dom s ∪ list_to_set (added_ids actions)).
Proof.
  revert s. induction actions as [|a actions IH]; intros s.
  - split; [done|]. intros Hs _. split; [done|]. simpl. set_solver.
  - destruct (IH (ordersReducer s a)) as [Hsub Hwhole].
    change (orders_run s (a :: actions))
      with (orders_run (ordersReducer s a) actions).
    split.
    + etrans; [|exact Hsub]. rewrite ordersReducer_dom. set_solver.
    + intros Hs [Ha Hrest].
      destruct (Hwhole (ordersReducer_whole s a Hs Ha) Hrest) as [Hw Hdom].
      split; [done|]. rewrite Hdom, ordersReducer_dom.
      destruct a as [payload|id value|id value]; simpl in *; set_solver.
Qed.

Lemma orders_stay_whole_witness :
  let o1 := {| order_id := "o1"; title := "article"; price := 10%float;
               currency := "USD" |} in
  let s : gmap string OrderEntry := {[ "o1" := whole o1 ]} in
  let o2 := {| order_id := "o2"; title := "other"; price := 5%float;
               currency := "EUR" |} in
  let actions := [EditPrice "o1" 12%float; Add o2; EditCurrency "o2" "USD"] in
  orders_whole s /\ edits_name_orders s actions /\
  orders_whole (orders_run s actions) /\
  dom (orders_run s actions) = dom s ∪ list_to_set (added_ids actions).
Proof.
  intros o1 s o2 actions.
  assert (Hs : orders_whole s).
  { intros k e He. apply lookup_singleton_Some in He as [<- <-]. by exists o1. }
  assert (Ha : edits_name_orders s actions).
  { simpl. split; [|split; [exact I|split; [|exact I]]].
    - apply elem_of_dom. eexists. apply lookup_singleton_eq.
    - apply elem_of_dom. eexists. apply lookup_insert_eq. }
  split; [exact Hs | split; [exact Ha |]].
  exact (proj2 (orders_stay_whole s actions) Hs Ha).
Defined.

(** An edit that names an order the state lacks does not fail: it adds an
    entry that holds the edited property and nothing else, no id, no title,
    and for a price edit no currency, so the state is no longer whole. *)
Theorem edit_of_missing_order_adds_partial_entry (s : gmap string OrderEntry)
    (id : string) :
  s !! id = None ->
  (forall value,
     ordersReducer s (EditPrice id value) !! id =
       Some {| entry_id := None; entry_title := None;
               entry_price := num value; entry_currency := None |} /\
     ~ orders_whole (ordersReducer s (EditPrice id value))) /\
  (forall value,
     ordersReducer s (EditCurrency id value) !! id =
       Some {| entry_id := None; entry_title := None;
               entry_price := undefined; entry_currency := Some value |} /\
     ~ orders_whole (ordersReducer s (EditCurrency id value))).
Proof.
  intros Hid. split; intros value; simpl; rewrite Hid, lookup_insert_eq;
    (split; [done|]); intros Hw;
    destruct (Hw id _ (lookup_insert_eq _ _ _)) as (o & Ho & _);
    discriminate.
Qed.

Lemma edit_of_missing_order_adds_partial_entry_witness :
  let s : gmap string OrderEntry := ∅ in
  s !! "o9" = None /\
  ordersReducer s (EditPrice "o9" 3%float) !! "o9" =
    Some {| entry_id := None; entry_title := None;
            entry_price := num 3%float; entry_currency := None |}.
Proof.
  intros s.
  assert (Hid : s !! "o9" = None) by apply lookup_empty.
  split; [exact Hid|].
  exact (proj1 (proj1 (edit_of_missing_order_adds_partial_entry s "o9" Hid)
                  3%float)).
Defined.

(** ** The variant without validation *)

Lemma forget_seed_entries (seeds : list (string * number))
    (m : gmap string CurrencyRate) :
  forget
    (fold_left (fun m kv => <[kv.1 := kv.2]> m)
       (map (fun kv : string * number =>
               (kv.1, {| rate := num kv.2; state := ACCEPTED;
                         confirmedRate := num kv.2 |})) seeds) m)
  = fold_left (fun m kv => <[kv.1 := kv.2]> m)
      (map (fun kv : string * number =>
              (kv.1, {| Plain.rate := kv.2; Plain.state := ACCEPTED |})) seeds)
      (forget m).
Proof.
  revert m. induction seeds as [|[id r] seeds IH]; intros m; simpl; [done|].
  rewrite IH. f_equal. unfold forget. by apply omap_insert_Some.
Qed.

(** The plain variant is the validated one with [confirmedRate] forgotten:
    the initial states correspond, and a run of edits through the validated
    reducer, which never throws, ends in the state the plain reducer
    reaches, once [confirmedRate] is dropped from every entry. *)
Theorem validated_variant_extends_plain (seeds edits : list (string * number)) :
  forget (initialCurrencyRatesState seeds) = Plain.initialCurrencyRatesState seeds /\
  forall s, exists s',
    run s (map (fun e => EditCurrencyRate e.1 e.2) edits) = Ok s' /\
    forget s' = Plain.run (forget s) edits.
Proof.
  split.
  - unfold initialCurrencyRatesState, Plain.initialCurrencyRatesState, fromEntries.
    rewrite forget_seed_entries. unfold forget. by rewrite omap_empty.
  - induction edits as [|[id r] edits IH]; intros s; simpl.
    + by exists s.
    + destruct (IH (<[id := {| rate := num r; state := DIRTY;
                               confirmedRate := spread_confirmedRate (s !! id) |}]> s))
        as (s' & Hrun & Hforget).
      exists s'. split; [exact Hrun|]. rewrite Hforget.
      unfold Plain.run. simpl. f_equal. unfold forget, Plain.ratesReducer.
      by apply omap_insert_Some.
Qed.

(** In the plain variant a currency that was edited is never shown as
    accepted again: in every reachable state an [ACCEPTED] entry is an entry
    of the initial state, untouched. *)
Theorem plain_accepted_entries_are_untouched (seeds : list (string * number))
    (s : gmap string Plain.CurrencyRate) :
  Plain.reachable seeds s ->
  forall k e, s !! k = Some e -> Plain.state e = ACCEPTED ->
              Plain.initialCurrencyRatesState seeds !! k = Some e.
Proof.
  induction 1 as [|s id r _ IH]; intros k e Hk Hst; [done|].
  unfold Plain.ratesReducer in Hk.
  destruct (decide (k = id)) as [->|Hne].
  - rewrite lookup_insert_eq in Hk. injection Hk as <-. discriminate.
  - rewrite lookup_insert_ne in Hk by done. by apply IH.
Qed.

Lemma plain_accepted_entries_are_untouched_witness :
  let seeds := [("EUR", 1.12%float); ("USD", 1.33%float)] in
  let s := Plain.ratesReducer (Plain.initialCurrencyRatesState seeds)
             "USD" 1.4%float in
  let e := {| Plain.rate := 1.12%float; Plain.state := ACCEPTED |} in
  Plain.reachable seeds s /\ s !! "EUR" = Some e /\
  Plain.state e = ACCEPTED /\
  Plain.initialCurrencyRatesState seeds !! "EUR" = Some e.
Proof.
  intros seeds s e.
  assert (Hreach : Plain.reachable seeds s).
  { apply Plain.reachable_step, Plain.reachable_init. }
  assert (Hk : s !! "EUR" = Some e) by reflexivity.
  split; [exact Hreach | split; [exact Hk | split; [reflexivity |]]].
  exact (plain_accepted_entries_are_untouched seeds s Hreach "EUR" e Hk eq_refl).
Defined.

Lemma map_result_ext_Forall {X Y : Type} (f g : X -> result Y) (xs : list X) :
  Forall (fun x => f x = g x) xs -> map_result f xs = map_result g xs.
Proof.
  induction 1 as [|x xs Hx _ IH]; simpl; [done|]. by rewrite Hx, IH.
Qed.

Lemma map_result_Ok {X Y : Type} (f : X -> result Y) (g : X -> Y)
    (xs : list X) :
  Forall (fun x => f x = Ok (g x)) xs -> map_result f xs = Ok (map g xs).
Proof.
  induction 1 as [|x xs Hx _ IH]; simpl; [done|]. by rewrite Hx, IH.
Qed.

(** In the plain variant the total reads the raw rate: after an edit of a
    currency, orders in that currency are converted at the new rate at once,
    and a total over orders in other currencies is what it was. *)
Theorem plain_total_follows_the_raw_rate (conv : number -> field -> number)
    (orders : list (string * Order)) (s : gmap string Plain.CurrencyRate)
    (id : string) (r : number) :
  (Forall (fun o => currency o.2 = id) orders ->
   Plain.OrderTotal conv orders (Plain.ratesReducer s id r) =
     Ok (fold_left (fun a b => (a + b)%float)
           (map (fun o => conv (price o.2) (num r)) orders) 0%float)) /\
  (Forall (fun o => currency o.2 <> id) orders ->
   Plain.OrderTotal conv orders (Plain.ratesReducer s id r) =
     Plain.OrderTotal conv orders s).
Proof.
  split; intros Horders; unfold Plain.OrderTotal, Object_values.
  - rewrite (map_result_Ok _ (fun o : Order => conv (price o) (num r))).
    + simpl. by rewrite map_map.
    + apply Forall_map. eapply Forall_impl; [exact Horders|].
      intros [key o] Hcur. simpl in *. subst id.
      unfold Plain.read_rate, Plain.ratesReducer.
      by rewrite lookup_insert_eq.
  - f_equal. apply map_result_ext_Forall, Forall_map.
    eapply Forall_impl; [exact Horders|].
    intros [key o] Hcur. simpl in *.
    unfold Plain.read_rate, Plain.ratesReducer.
    by rewrite lookup_insert_ne.
Qed.

Lemma plain_total_follows_the_raw_rate_witness :
  let s := Plain.initialCurrencyRatesState usd_seed in
  Forall (fun o => currency o.2 = "USD") usd_order /\
  Plain.OrderTotal getBaseCurrencyPrice usd_order
    (Plain.ratesReducer s "USD" 2%float) = Ok 20%float.
Proof.
  intros s.
  assert (Horders : Forall (fun o => currency o.2 = "USD") usd_order).
  { constructor; [reflexivity | constructor]. }
  split; [exact Horders|].
  exact (proj1 (plain_total_follows_the_raw_rate getBaseCurrencyPrice
                  usd_order s "USD" 2%float) Horders).
Defined.

(** ** Objects with their property order *)

Section ObjectFacts.

Context {V : Type}.
Implicit Types (o : list (string * V)) (k : string) (v : V).

Lemma has_key_true k o : has_key k o = true <-> k ∈ o.*1.
Proof. unfold has_key. by rewrite bool_decide_eq_true. Qed.

Lemma has_key_false k o : has_key k o = false <-> k ∉ o.*1.
Proof. unfold has_key. by rewrite bool_decide_eq_false. Qed.

Lemma obj_get_None k o : obj_get k o = None <-> k ∉ o.*1.
Proof. unfold obj_get. by rewrite not_elem_of_list_to_map. Qed.

Lemma array_index_inj k1 k2 n :
  array_index k1 = Some n -> array_index k2 = Some n -> k1 = k2.
Proof.
  assert (Hpretty : forall k, array_index k = Some n -> pretty n = k).
  { intros k. unfold array_index. destruct k as [|c k]; [discriminate|].
    destruct (parse_digits 0 (String c k)) as [m|]; [|discriminate].
    destruct (bool_decide (pretty m = String c k)) eqn:Hm; [|discriminate].
    destruct (m <? 4294967295)%N; [|discriminate]. simpl.
    intros [= <-]. by apply bool_decide_eq_true in Hm. }
  intros H1 H2. by rewrite <- (Hpretty k1 H1), <- (Hpretty k2 H2).
Qed.

Lemma obj_replace_keys k v o : (obj_replace k v o).*1 = o.*1.
Proof.
  induction o as [|[k' v'] o IH]; simpl; [done|].
  destruct (decide (k' = k)) as [->|]; simpl; [done|]. by f_equal.
Qed.

Lemma obj_replace_absent k v o : k ∉ o.*1 -> obj_replace k v o = o.
Proof.
  induction o as [|[k' v'] o IH]; simpl; [done|]. intros Hk.
  apply not_elem_of_cons in Hk as [Hne Hk].
  rewrite decide_False by done. by rewrite IH.
Qed.

Lemma obj_insert_index_perm n k v o : obj_insert_index n k v o ≡ₚ (k, v) :: o.
Proof.
  induction o as [|[k' v'] o IH]; simpl; [done|].
  destruct (array_index k') as [n'|]; [|done].
  destruct (n' <? n)%N; [|done]. rewrite IH. apply Permutation_swap.
Qed.

Lemma obj_set_absent_perm k v o : k ∉ o.*1 -> obj_set k v o ≡ₚ (k, v) :: o.
Proof.
  intros Hk. unfold obj_set. rewrite (proj2 (has_key_false k o) Hk).
  destruct (array_index k).
  - apply obj_insert_index_perm.
  - by rewrite Permutation_app_comm.
Qed.

Lemma obj_set_keys k v o k' : k' ∈ (obj_set k v o).*1 <-> k' = k \/ k' ∈ o.*1.
Proof.
  unfold obj_set. destruct (has_key k o) eqn:Hk.
  - apply has_key_true in Hk. rewrite obj_replace_keys.
    split; [auto|]. by intros [->|].
  - apply has_key_false in Hk.
    rewrite <- (elem_of_cons (o.*1) k' k).
    change (k :: o.*1) with (((k, v) :: o).*1).
    assert (Hperm : (match array_index k with
                     | Some n => obj_insert_index n k v o
                     | None => o ++ [(k, v)]
                     end) ≡ₚ (k, v) :: o).
    { destruct (array_index k).
      - apply obj_insert_index_perm.
      - by rewrite Permutation_app_comm. }
    by rewrite Hperm.
Qed.

(** Reading after writing: the entries of [obj_set k v o], as a map, are
    those of [o] with [k] mapped to [v]. *)
Lemma obj_set_to_map k v o :
  (list_to_map (obj_set k v o) : gmap string V) = <[k := v]> (list_to_map o).
Proof.
  unfold obj_set. destruct (has_key k o) eqn:Hk.
  - apply has_key_true in Hk.
    induction o as [|[k' v'] o IH]; simpl; [by apply elem_of_nil in Hk|].
    destruct (decide (k' = k)) as [->|Hne]; simpl.
    + by rewrite insert_insert_eq.
    + simpl in Hk. apply elem_of_cons in Hk as [->|Hk]; [done|].
      rewrite (IH Hk). by apply insert_insert_ne.
  - apply has_key_false in Hk. destruct (array_index k) as [n|].
    + induction o as [|[k' v'] o IH]; simpl; [done|].
      simpl in Hk. apply not_elem_of_cons in Hk as [Hne Hk].
      destruct (array_index k') as [n'|]; [|done].
      destruct (n' <? n)%N; [|done]. simpl. rewrite (IH Hk).
      by apply insert_insert_ne.
    + rewrite list_to_map_app. simpl. rewrite insert_empty.
      rewrite <- insert_union_singleton_r; [done|].
      by apply not_elem_of_list_to_map.
Qed.

Lemma obj_get_set_eq k v o : obj_get k (obj_set k v o) = Some v.
Proof. unfold obj_get. by rewrite obj_set_to_map, lookup_insert_eq. Qed.

Lemma obj_get_set_ne k k' v o :
  k <> k' -> obj_get k' (obj_set k v o) = obj_get k' o.
Proof.
  intros Hne. unfold obj_get. by rewrite obj_set_to_map, lookup_insert_ne.
Qed.

Lemma has_key_set_ne k k' v o :
  k <> k' -> has_key k' (obj_set k v o) = has_key k' o.
Proof.
  intros Hne. unfold has_key. apply bool_decide_ext.
  rewrite obj_set_keys. split; [|auto]. by intros [->|].
Qed.

Lemma has_key_set_eq k v o : has_key k (obj_set k v o) = true.
Proof. apply has_key_true, obj_set_keys. by left. Qed.

Lemma obj_replace_commute k1 k2 v1 v2 o :
  k1 <> k2 ->
  obj_replace k1 v1 (obj_replace k2 v2 o)
  = obj_replace k2 v2 (obj_replace k1 v1 o).
Proof.
  intros Hne. induction o as [|[k' v'] o IH]; simpl; [done|].
  destruct (decide (k' = k2)) as [H2|H2], (decide (k' = k1)) as [H1|H1];
    simpl.
  - congruence.
  - by rewrite decide_False, decide_True by congruence.
  - by rewrite decide_True, decide_False by congruence.
  - by rewrite !decide_False, IH by done.
Qed.

Lemma obj_replace_app k v o l :
  k ∈ o.*1 -> obj_replace k v (o ++ l) = obj_replace k v o ++ l.
Proof.
  induction o as [|[k' v'] o IH]; simpl; [by intros ?%elem_of_nil|].
  intros Hk. destruct (decide (k' = k)) as [->|Hne]; [done|].
  apply elem_of_cons in Hk as [->|Hk]; [done|]. by rewrite IH.
Qed.

Lemma obj_replace_insert_index k v n k2 v2 o :
  k <> k2 ->
  obj_replace k v (obj_insert_index n k2 v2 o)
  = obj_insert_index n k2 v2 (obj_replace k v o).
Proof.
  intros Hne. induction o as [|[k' v'] o IH]; simpl.
  - by rewrite decide_False.
  - destruct (decide (k' = k)) as [->|Hk']; simpl.
    + destruct (array_index k) as [n'|]; simpl.
      * destruct (n' <? n)%N; simpl.
        -- by rewrite decide_True.
        -- by rewrite decide_False, decide_True by done.
      * by rewrite decide_False, decide_True by done.
    + destruct (array_index k') as [n'|]; simpl.
      * destruct (n' <? n)%N; simpl.
        -- by rewrite decide_False, IH by done.
        -- by rewrite !decide_False by done.
      * by rewrite !decide_False by done.
Qed.

(** Writing two different keys, one of which the object owns already, gives
    the same object in either order, property order included. *)
Lemma obj_set_commute k1 k2 v1 v2 o :
  k1 <> k2 -> k1 ∈ o.*1 \/ k2 ∈ o.*1 ->
  obj_set k1 v1 (obj_set k2 v2 o) = obj_set k2 v2 (obj_set k1 v1 o).
Proof.
  assert (Hone : forall k1 k2 v1 v2, k1 <> k2 -> k1 ∈ o.*1 ->
            obj_set k1 v1 (obj_set k2 v2 o) = obj_set k2 v2 (obj_set k1 v1 o)).
  { clear. intros k1 k2 v1 v2 Hne H1.
    unfold obj_set at 1. rewrite has_key_set_ne by done.
    rewrite (proj2 (has_key_true k1 o) H1).
    unfold obj_set at 3. rewrite (proj2 (has_key_true k1 o) H1).
    unfold obj_set.
    assert (Hk : has_key k2 (obj_replace k1 v1 o) = has_key k2 o).
    { unfold has_key. by rewrite obj_replace_keys. }
    rewrite Hk. destruct (has_key k2 o).
    - by apply obj_replace_commute.
    - destruct (array_index k2).
      + by apply obj_replace_insert_index.
      + by apply obj_replace_app. }
  intros Hne [H1|H2]; [by apply Hone|].
  symmetry. by apply Hone.
Qed.

(** In general the two orders give the same entries, in possibly different
    property order. *)
Lemma obj_set_commute_perm k1 k2 v1 v2 o :
  k1 <> k2 ->
  obj_set k1 v1 (obj_set k2 v2 o) ≡ₚ obj_set k2 v2 (obj_set k1 v1 o).
Proof.
  intros Hne.
  destruct (decide (k1 ∈ o.*1)) as [H1|H1];
    [by rewrite obj_set_commute by auto|].
  destruct (decide (k2 ∈ o.*1)) as [H2|H2];
    [by rewrite obj_set_commute by auto|].
  rewrite (obj_set_absent_perm k1 v1 (obj_set k2 v2 o)).
  - rewrite (obj_set_absent_perm k2 v2 (obj_set k1 v1 o)).
    + rewrite (obj_set_absent_perm k2 v2 o H2), (obj_set_absent_perm k1 v1 o H1).
      apply Permutation_swap.
    + rewrite obj_set_keys. by intros [?|?].
  - rewrite obj_set_keys. by intros [?|?].
Qed.

(** Writing a key twice is writing it once with the second value. *)
Lemma obj_set_twice k v1 v2 o :
  obj_set k v2 (obj_set k v1 o) = obj_set k v2 o.
Proof.
  unfold obj_set at 1. rewrite has_key_set_eq.
  unfold obj_set. destruct (has_key k o) eqn:Hk.
  - clear Hk. induction o as [|[k' v'] o IH]; simpl; [done|].
    destruct (decide (k' = k)) as [->|Hne]; simpl.
    + by rewrite decide_True.
    + by rewrite decide_False, IH by done.
  - apply has_key_false in Hk. destruct (array_index k) as [n|].
    + induction o as [|[k' v'] o IH]; simpl.
      * by rewrite decide_True.
      * simpl in Hk. apply not_elem_of_cons in Hk as [Hne Hk].
        destruct (array_index k') as [n'|]; simpl.
        -- destruct (n' <? n)%N; simpl.
           ++ by rewrite decide_False, (IH Hk) by done.
           ++ by rewrite decide_True.
        -- by rewrite decide_True.
    + induction o as [|[k' v'] o IH]; simpl.
      * by rewrite decide_True.
      * simpl in Hk. apply not_elem_of_cons in Hk as [Hne Hk].
        by rewrite decide_False, (IH Hk) by done.
Qed.

End ObjectFacts.

(** ** The reducers and the property order *)

Lemma ratesReducer_entries_written (o : list (string * CurrencyRate))
    (a : RatesAction) :
  ratesReducer_entries o a =
    bind (written_entry a (obj_get (target a) o))
         (fun e => Ok (obj_set (target a) e o)).
Proof.
  destruct a as [id r|id|id res]; simpl; try done.
  destruct (obj_get id o); [done|]. by destruct (inherited id).
Qed.

(** Forgetting the property order turns the reducer on entries into the
    reducer on maps. *)
Lemma ratesReducer_entries_to_map (o : list (string * CurrencyRate))
    (a : RatesAction) :
  ratesReducer (list_to_map o) a =
    match ratesReducer_entries o a with
    | Ok o' => Ok (list_to_map o')
    | TypeError => TypeError
    end.
Proof.
  destruct a as [id r|id|id res]; simpl; unfold obj_get;
    rewrite ?obj_set_to_map; try done.
  destruct (list_to_map o !! id) as [e|]; [by rewrite obj_set_to_map|].
  destruct (inherited id); [by rewrite obj_set_to_map|done].
Qed.

(** Two transitions that name different currencies give the same outcome in
    either order: a [TypeError] in both, or two states with the same
    entries. When the state owns at least one of the two currencies the two
    states are the same object, property order included; when both
    transitions create their entry, the entries may come in a different
    order. *)
Theorem transitions_of_different_currencies_commute
    (o : list (string * CurrencyRate)) (a b : RatesAction) :
  target a <> target b ->
  match run_entries o [a; b], run_entries o [b; a] with
  | Ok o1, Ok o2 =>
      o1 ≡ₚ o2 /\
      (has_key (target a) o = true \/ has_key (target b) o = true -> o1 = o2)
  | TypeError, TypeError => True
  | _, _ => False
  end.
Proof.
  intros Hne. simpl. rewrite !ratesReducer_entries_written.
  destruct (written_entry a (obj_get (target a) o)) as [ea|] eqn:Ha,
           (written_entry b (obj_get (target b) o)) as [eb|] eqn:Hb; simpl;
    rewrite ?ratesReducer_entries_written, ?obj_get_set_ne by done;
    rewrite ?Ha, ?Hb; simpl; try done.
  split.
  - by apply obj_set_commute_perm.
  - intros Hown. apply obj_set_commute; [done|].
    destruct Hown as [H|H]; apply has_key_true in H; auto.
Qed.

Lemma transitions_of_different_currencies_commute_witness :
  let o := [("EUR", {| rate := num 1.12%float; state := ACCEPTED;
                       confirmedRate := num 1.12%float |});
            ("USD", {| rate := num 1.33%float; state := ACCEPTED;
                       confirmedRate := num 1.33%float |})] in
  let a := EditCurrencyRate "USD" 1.4%float in
  let b := IsValidResult "EUR" false in
  target a <> target b /\
  match run_entries o [a; b], run_entries o [b; a] with
  | Ok o1, Ok o2 =>
      o1 ≡ₚ o2 /\
      (has_key (target a) o = true \/ has_key (target b) o = true -> o1 = o2)
  | TypeError, TypeError => True
  | _, _ => False
  end.
Proof.
  intros o a b.
  assert (Hne : target a <> target b) by discriminate.
  split; [exact Hne|].
  exact (transitions_of_different_currencies_commute o a b Hne).
Defined.

(** Two edits that each create an entry: the entries come in the order of
    the edits. *)
Example new_entries_come_in_dispatch_order :
  run_entries [] [EditCurrencyRate "USD" 1.2%float;
                  EditCurrencyRate "EUR" 0.9%float]
    = Ok [("USD", {| rate := num 1.2%float; state := DIRTY;
                     confirmedRate := undefined |});
          ("EUR", {| rate := num 0.9%float; state := DIRTY;
                     confirmedRate := undefined |})] /\
  run_entries [] [EditCurrencyRate "EUR" 0.9%float;
                  EditCurrencyRate "USD" 1.2%float]
    = Ok [("EUR", {| rate := num 0.9%float; state := DIRTY;
                     confirmedRate := undefined |});
          ("USD", {| rate := num 1.2%float; state := DIRTY;
                     confirmedRate := undefined |})].
Proof. split; reflexivity. Qed.

Lemma ordersReducer_entries_set (o : list (string * OrderEntry))
    (a : OrdersAction) :
  ordersReducer_entries o a =
    obj_set (orders_target a) (written_order a (obj_get (orders_target a) o)) o.
Proof. by destruct a. Qed.

Lemma ordersReducer_entries_to_map (o : list (string * OrderEntry))
    (a : OrdersAction) :
  list_to_map (ordersReducer_entries o a) = ordersReducer (list_to_map o) a.
Proof. destruct a; simpl; by rewrite obj_set_to_map. Qed.

(** Orders actions on different orders give states with the same entries in
    either order, and the same object, property order included, when the
    state holds at least one of the two orders; two actions that each add
    their order leave them in the order of the actions. A price edit and a
    currency edit of the same order commute, and of two price edits of one
    order the second wins, property order included. *)
Theorem order_edits_commute (o : list (string * OrderEntry)) :
  (forall a b, orders_target a <> orders_target b ->
     orders_run_entries o [a; b] ≡ₚ orders_run_entries o [b; a] /\
     (has_key (orders_target a) o = true \/
      has_key (orders_target b) o = true ->
      orders_run_entries o [a; b] = orders_run_entries o [b; a])) /\
  (forall id p c,
     orders_run_entries o [EditPrice id p; EditCurrency id c]
     = orders_run_entries o [EditCurrency id c; EditPrice id p]) /\
  (forall id p1 p2,
     orders_run_entries o [EditPrice id p1; EditPrice id p2]
     = ordersReducer_entries o (EditPrice id p2)).
Proof.
  split; [|split].
  - intros a b Hne. unfold orders_run_entries. simpl.
    rewrite !ordersReducer_entries_set, !obj_get_set_ne by done. split.
    + by apply obj_set_commute_perm.
    + intros Hown. symmetry. apply obj_set_commute; [done|].
      destruct Hown as [H|H]; apply has_key_true in H; auto.
  - intros id p c. unfold orders_run_entries. simpl.
    by rewrite !obj_get_set_eq, !obj_set_twice.
  - intros id p1 p2. unfold orders_run_entries. simpl.
    by rewrite !obj_get_set_eq, !obj_set_twice.
Qed.

Lemma order_edits_commute_witness :
  let o1 := {| order_id := "o1"; title := "article"; price := 10%float;
               currency := "USD" |} in
  let o := [("o1", whole o1)] in
  let a := EditPrice "o1" 12%float in
  let b := Add {| order_id := "o2"; title := "other"; price := 5%float;
                  currency := "EUR" |} in
  orders_target a <> orders_target b /\
  (has_key (orders_target a) o = true \/ has_key (orders_target b) o = true) /\
  orders_run_entries o [a; b] = orders_run_entries o [b; a].
Proof.
  intros o1 o a b.
  assert (Hne : orders_target a <> orders_target b) by discriminate.
  assert (Hown : has_key (orders_target a) o = true \/
                 has_key (orders_target b) o = true) by (left; reflexivity).
  split; [exact Hne | split; [exact Hown |]].
  exact (proj2 (proj1 (order_edits_commute o) a b Hne) Hown).
Defined.

(** Two orders added to a state that holds neither: [Object.values] lists
    them in the order in which they were added, except that an id that is an
    array index comes first. *)
Example added_orders_come_in_dispatch_order :
  let oa := {| order_id := "a"; title := "a"; price := 1%float;
               currency := "USD" |} in
  let ob := {| order_id := "b"; title := "b"; price := 2%float;
               currency := "USD" |} in
  let o7 := {| order_id := "7"; title := "seven"; price := 3%float;
               currency := "USD" |} in
  (orders_run_entries [] [Add oa; Add ob]).*1 = ["a"; "b"] /\
  (orders_run_entries [] [Add ob; Add oa]).*1 = ["b"; "a"] /\
  (orders_run_entries [] [Add oa; Add o7]).*1 = ["7"; "a"] /\
  (orders_run_entries [] [Add o7; Add oa]).*1 = ["7"; "a"].
Proof. repeat split; vm_compute; reflexivity. Qed.

(** ** Names found on the prototype *)

(** A validation result for a name the state does not own: for a name of
    [Object.prototype] the reducer writes an entry without numbers, for any
    other name the read of [previousState.rate] throws. *)
Example result_for_a_name_not_owned :
  ratesReducer (initialCurrencyRatesState usd_seed) (IsValidResult "toString" true)
    = Ok (<["toString" := {| rate := undefined; state := ACCEPTED;
                             confirmedRate := undefined |}]>
            (initialCurrencyRatesState usd_seed)) /\
  ratesReducer (initialCurrencyRatesState usd_seed) (IsValidResult "GBP" true)
    = TypeError.
Proof. split; reflexivity. Qed.

(** An order in a currency that is a name of [Object.prototype] does not
    make the total throw: [undefined] is passed as the rate, and with the
    conversion of the spec the total is [NaN]. *)
Example total_for_a_name_not_owned :
  let order := {| order_id := "o1"; title := "article"; price := 10%float;
                  currency := "toString" |} in
  OrderTotal getBaseCurrencyPrice [("o1", order)]
    (initialCurrencyRatesState usd_seed) = Ok nan /\
  OrderTotal getBaseCurrencyPrice
    [("o1", {| order_id := "o1"; title := "article"; price := 10%float;
               currency := "GBP" |})]
    (initialCurrencyRatesState usd_seed) = TypeError.
Proof. split; vm_compute; reflexivity. Qed.
